(** * Genius API proxy: the DOM flattener and the request pipeline

    A shallow embedding of [src/worker.js] (the gated worker) and of the
    earlier ungated worker, followed by the properties of the flattener
    [flattenGenius] and of the [fetch] handlers. *)

From Stdlib Require Import String Ascii ZArith Lia.
From stdpp Require Import base decidable option list strings pretty gmap.

Open Scope string_scope.
Open Scope list_scope.

(** ** JavaScript values that travel through the flattener *)

Module Js.

(** Attribute values of the upstream DOM are strings or numbers; a
    missing property reads as [undefined], and the initial link is
    [null]. *)
Inductive value :=
| Null
| Undefined
| Str (s : string)
| Num (n : Z).

#[global] Instance value_eq_dec : EqDecision value.
Proof. solve_decision. Defined.

(** [a === b] on these values. *)
Definition strict_eq (a b : value) : bool := bool_decide (a = b).

(** A plain object used as a property bag. *)
Abbreviation object := (gmap string value).

(** [o.k] on an object that exists: [undefined] when [k] is not set. *)
Definition get (o : object) (k : string) : value :=
  default Undefined (o !! k).

(** What a thrown value carries: reading [prop] from [undefined] is a
    [TypeError]; [Error msg] is [new Error(msg)]; [RangeError] is the
    engine's "Maximum call stack size exceeded". *)
Inductive exn :=
| TypeError (prop : string)
| Error (msg : string)
| RangeError.

Inductive res (A : Type) :=
| Ok (a : A)
| Throw (e : exn).
Arguments Ok {A} a.
Arguments Throw {A} e.

(** [o.k] where [o] itself may be [undefined]. *)
Definition get_prop (o : option object) (k : string) : res value :=
  match o with
  | Some m => Ok (get m k)
  | None => Throw (TypeError k)
  end.

End Js.

Import Js.

(** ** Data model *)

(** A node of the upstream rich-text DOM: [null], a string, or an object
    [{tag, attributes, children}] whose [attributes] and [children] may be
    absent. *)
#[local] Unset Elimination Schemes.
Inductive DomNode :=
| DNull
| DText (s : string)
| DElem (tag : string) (attributes : option object)
        (children : option (list DomNode)).
#[local] Set Elimination Schemes.

Record Span := mkSpan {
  text : string;
  styles : list string;
  link : value
}.

(** The records pushed to [result]: [{type, spans}] and
    [{type: 'image', url, alt, width, height}]. *)
Inductive Item :=
| Block (type : string) (spans : list Span)
| Image (url alt width height : value).

#[global] Instance Span_eq_dec : EqDecision Span.
Proof. solve_decision. Defined.
#[global] Instance Item_eq_dec : EqDecision Item.
Proof. solve_decision. Defined.

(** ** The walk: a state-and-exception monad over the [result] array *)

Definition M (A : Type) : Type := list Item -> res (A * list Item).

Definition ret {A} (a : A) : M A := fun result => Ok (a, result).

Definition bind {A B} (m : M A) (k : A -> M B) : M B :=
  fun result =>
    match m result with
    | Ok (a, result') => k a result'
    | Throw e => Throw e
    end.

Definition lift {A} (r : res A) : M A :=
  fun result =>
    match r with
    | Ok a => Ok (a, result)
    | Throw e => Throw e
    end.

(** [result.push(item)] *)
Definition push (item : Item) : M unit :=
  fun result => Ok (tt, result ++ [item]).

Notation "'let!' x ':=' m 'in' k" := (bind m (fun x => k))
  (at level 10, x name, m at level 100, k at level 200).
Notation "'run!' m 'in' k" := (bind m (fun _ => k))
  (at level 10, m at level 100, k at level 200).

(** [xs.flatMap(f)] for a callback that runs in [M]: the callback is called
    on each element in order and the returned arrays are concatenated. *)
Definition flatMap {A B} (f : A -> M (list B)) : list A -> M (list B) :=
  fix go (xs : list A) : M (list B) :=
    match xs with
    | [] => ret []
    | x :: xs' =>
        let! ys := f x in
        let! rest := go xs' in
        ret (ys ++ rest)
    end.

(** [(node.children || []).flatMap(f)] *)
Definition flatMapChildren {A B} (f : A -> M (list B))
    (children : option (list A)) : M (list B) :=
  match children with
  | Some cs => flatMap f cs
  | None => ret []
  end.

(** [['a', 'b'].includes(tag)] *)
Definition includes (l : list string) (tag : string) : bool :=
  bool_decide (tag ∈ l).

Definition newline : string := String (ascii_of_nat 10) EmptyString.

(** A parameter declared [currentLink = null]: an argument that is
    [undefined] is replaced by the default. *)
Definition default_null (argument : value) : value :=
  match argument with
  | Undefined => Null
  | _ => argument
  end.

(** The body of [walk], with the recursive call as the parameter [walk].
    [currentStyles] and [isInsideBlock] are never passed [undefined];
    [currentLink] is, when an anchor has no [href]. *)
Definition walk_body
    (walk : DomNode -> list string -> value -> bool -> M (list Span))
    (node : DomNode) (currentStyles : list string)
    (currentLink : value) (isInsideBlock : bool) : M (list Span) :=
  let currentLink := default_null currentLink in
  match node with
  | DNull => ret []
  | DText s =>
      if bool_decide (s = "") then ret []
      else ret [mkSpan s currentStyles currentLink]
  | DElem tag attributes children =>
      if bool_decide (tag = "br") then
        ret [mkSpan newline [] Null]
      else if bool_decide (tag = "img") then
        let! url := lift (get_prop attributes "src") in
        let! alt := lift (get_prop attributes "alt") in
        let! width := lift (get_prop attributes "width") in
        let! height := lift (get_prop attributes "height") in
        run! push (Image url alt width height) in
        ret []
      else if includes ["em"; "i"; "b"; "strong"; "a"] tag then
        let newStyles :=
          currentStyles
            ++ (if includes ["em"; "i"] tag then ["italic"] else [])
            ++ (if includes ["b"; "strong"] tag then ["bold"] else []) in
        let! newLink :=
          (if bool_decide (tag = "a")
           then lift (get_prop attributes "href")
           else ret currentLink) in
        flatMapChildren (fun child => walk child newStyles newLink true)
                        children
      else
        let isBlockTag := includes ["p"; "blockquote"] tag in
        let! childrenSpans :=
          flatMapChildren
            (fun child =>
               walk child currentStyles currentLink
                    (if isBlockTag then true else isInsideBlock))
            children in
        if isBlockTag && negb isInsideBlock then
          run! (if bool_decide (0 < length childrenSpans)
                then push (Block (if bool_decide (tag = "p")
                                  then "paragraph" else "blockquote")
                                 childrenSpans)
                else ret tt) in
          ret []
        else ret childrenSpans
  end.

Fixpoint walk (node : DomNode) (currentStyles : list string)
    (currentLink : value) (isInsideBlock : bool) {struct node}
    : M (list Span) :=
  walk_body walk node currentStyles currentLink isInsideBlock.

(** [flattenGenius(dom)]: [walk(dom)] with the default arguments, then the
    accumulated [result]. *)
Definition flattenGenius (dom : DomNode) : res (list Item) :=
  match walk dom [] Null false [] with
  | Ok (_, result) => Ok result
  | Throw e => Throw e
  end.

(** The same recursion run on a call stack that holds at most [frames]
    nested calls of [walk]: one more call throws the engine's
    [RangeError]. *)
Fixpoint walk_stack (frames : nat) (node : DomNode)
    (currentStyles : list string) (currentLink : value)
    (isInsideBlock : bool) : M (list Span) :=
  match frames with
  | O => fun _ => Throw RangeError
  | S frames' =>
      walk_body (walk_stack frames') node currentStyles currentLink
                isInsideBlock
  end.

(** The children of a node as [walk] iterates over them. *)
Definition walk_children (children : option (list DomNode))
    (currentStyles : list string) (currentLink : value)
    (isInsideBlock : bool) : M (list Span) :=
  flatMapChildren
    (fun child => walk child currentStyles currentLink isInsideBlock)
    children.

(** ** Vocabulary of the properties *)

Definition is_block_tag (tag : string) : bool :=
  includes ["p"; "blockquote"] tag.

Definition block_type (tag : string) : string :=
  if bool_decide (tag = "p") then "paragraph" else "blockquote".

Definition is_image (i : Item) : bool :=
  match i with Image _ _ _ _ => true | Block _ _ => false end.

Definition is_block (i : Item) : bool :=
  match i with Block _ _ => true | Image _ _ _ _ => false end.

(** A [Block] record with at least one span; image records qualify. *)
Definition spans_nonempty (i : Item) : Prop :=
  match i with Block _ spans => spans <> [] | Image _ _ _ _ => True end.

(** Number of nested [walk] calls a node needs below its own. *)
Fixpoint height (node : DomNode) : nat :=
  match node with
  | DElem _ _ (Some cs) => S (foldr Nat.max 0 (map height cs))
  | _ => 0
  end.

Definition height_of_children (children : option (list DomNode)) : nat :=
  match children with
  | Some cs => S (foldr Nat.max 0 (map height cs))
  | None => 0
  end.

(** The data model gives every tagged node an attribute mapping; [walk]
    reads it at [img] and [a] nodes only. [attrs_ok] holds when each
    [img] and [a] node that the walk reaches has one ([br] and [img] are
    leaves of the walk: their children are not visited). *)
Fixpoint attrs_ok (node : DomNode) : bool :=
  match node with
  | DNull | DText _ => true
  | DElem tag attributes children =>
      if bool_decide (tag = "br") then true
      else if bool_decide (tag = "img") then bool_decide (is_Some attributes)
      else
        (if bool_decide (tag = "a") then bool_decide (is_Some attributes)
         else true)
        && match children with
           | Some cs => forallb attrs_ok cs
           | None => true
           end
  end.

(** The image record of an [img] node. *)
Definition image_of (attributes : option object) : Item :=
  let o := default ∅ attributes in
  Image (get o "src") (get o "alt") (get o "width") (get o "height").

(** The [img] nodes of a tree in document order, as the walk meets them. *)
Fixpoint images_in (node : DomNode) : list Item :=
  match node with
  | DNull | DText _ => []
  | DElem tag attributes children =>
      if bool_decide (tag = "br") then []
      else if bool_decide (tag = "img") then [image_of attributes]
      else match children with
           | Some cs => flat_map images_in cs
           | None => []
           end
  end.

(** Every [img] node of a tree, at any depth, in document order. *)
Fixpoint img_tags (node : DomNode) : list Item :=
  match node with
  | DNull | DText _ => []
  | DElem tag attributes children =>
      (if bool_decide (tag = "img") then [image_of attributes] else [])
      ++ match children with
         | Some cs => flat_map img_tags cs
         | None => []
         end
  end.

(** [br] and [img] are void elements: they have no children. *)
Fixpoint void_leaves (node : DomNode) : bool :=
  match node with
  | DNull | DText _ => true
  | DElem tag _ children =>
      match children with
      | Some cs =>
          (if includes ["br"; "img"] tag then bool_decide (cs = []) else true)
          && forallb void_leaves cs
      | None => true
      end
  end.

(** No [p], [blockquote] or [img] tag anywhere in the tree. *)
Fixpoint no_block_or_image (node : DomNode) : bool :=
  match node with
  | DNull | DText _ => true
  | DElem tag _ children =>
      negb (includes ["p"; "blockquote"; "img"] tag)
      && match children with
         | Some cs => forallb no_block_or_image cs
         | None => true
         end
  end.

(** The styles an inline tag applies. *)
Definition tag_styles (tag : string) : list string :=
  (if includes ["em"; "i"] tag then ["italic"] else [])
  ++ (if includes ["b"; "strong"] tag then ["bold"] else []).

(** [text_under node path s]: the text [s] is a leaf of [node] and [path]
    lists the tags of the nodes from [node] down to its parent, outermost
    first. *)
Inductive text_under : DomNode -> list string -> string -> Prop :=
| text_here (s : string) : text_under (DText s) [] s
| text_below (tag : string) (attributes : option object)
    (cs : list DomNode) (c : DomNode) (path : list string) (s : string) :
    c ∈ cs -> text_under c path s ->
    text_under (DElem tag attributes (Some cs)) (tag :: path) s.

(** In [l], the first of "italic" and "bold" to occur is "italic", and
    "bold" occurs after it. *)
Fixpoint italic_before_bold (l : list string) : bool :=
  match l with
  | [] => false
  | x :: l' =>
      if bool_decide (x = "italic") then bool_decide ("bold" ∈ l')
      else if bool_decide (x = "bold") then false
      else italic_before_bold l'
  end.

(** [styled_from node st x]: the span [x] is the newline of a [br], or
    the text of a leaf of [node] whose styles are [st] followed by the
    styles of the tags on the way down to it, outermost first. *)
Definition styled_from (node : DomNode) (st : list string) (x : Span) : Prop :=
  x = mkSpan newline [] Null
  \/ exists path,
      text_under node path (text x)
      /\ styles x = st ++ flat_map tag_styles path.

(** All spans that reached the output. *)
Definition output_spans (out : list Item) : list Span :=
  flat_map (fun i => match i with Block _ spans => spans | _ => [] end) out.

(** A node [{tag, children}] with no [attributes] property. *)
Definition elem (tag : string) (children : list DomNode) : DomNode :=
  DElem tag None (Some children).

Definition br_span : Span := mkSpan newline [] Null.

(** The inputs of the scenarios. *)
Definition c1_input : DomNode :=
  elem "p" [DText "Hello "; elem "b" [DText "world"]; DText "!"].

Definition bold_around_italic : DomNode :=
  elem "p" [elem "b" [elem "i" [DText "x"]]].

Definition quote_in_paragraph : DomNode :=
  elem "p" [elem "blockquote" [DText "quoted"]].

Definition image_in_paragraph : DomNode :=
  elem "p"
    [DElem "img"
       (Some (<[ "src" := Str "x.png" ]>
              (<[ "alt" := Str "a" ]>
               (<[ "width" := Num 1 ]> {[ "height" := Num 2 ]}))))
       None;
     DText "after"].

Definition orphan_link : DomNode :=
  DElem "a" (Some {[ "href" := Str "https://genius.com" ]})
        (Some [elem "em" [DText "orphan"]]).

(** ** The output as a function of the tree *)

(** The spans a node hands to the block it stands in: its text leaves and
    line breaks in document order, each text with the styles and the link
    that reach it. *)
Fixpoint spans_in (node : DomNode) (st : list string) (lk : value)
    : list Span :=
  match node with
  | DNull => []
  | DText s =>
      if bool_decide (s = "") then [] else [mkSpan s st (default_null lk)]
  | DElem tag attributes children =>
      if bool_decide (tag = "br") then [mkSpan newline [] Null]
      else if bool_decide (tag = "img") then []
      else if includes ["em"; "i"; "b"; "strong"; "a"] tag then
        match children with
        | Some cs =>
            flat_map
              (fun c =>
                 spans_in c (st ++ tag_styles tag)
                   (if bool_decide (tag = "a")
                    then get (default ∅ attributes) "href"
                    else default_null lk))
              cs
        | None => []
        end
      else
        match children with
        | Some cs => flat_map (fun c => spans_in c st (default_null lk)) cs
        | None => []
        end
  end.

(** The records of a node that is outside every block, in document
    order: an [img] gives its record where it stands; a block tag gives
    the images of its subtree and then, if it has spans, its own record;
    an inline tag gives the images of its subtree; any other tag gives the
    records of its children, one child after the other. *)
Fixpoint emitted (node : DomNode) (st : list string) (lk : value)
    : list Item :=
  match node with
  | DNull | DText _ => []
  | DElem tag attributes children =>
      if bool_decide (tag = "br") then []
      else if bool_decide (tag = "img") then [image_of attributes]
      else if includes ["em"; "i"; "b"; "strong"; "a"] tag then
        match children with
        | Some cs => flat_map images_in cs
        | None => []
        end
      else if is_block_tag tag then
        match children with
        | Some cs =>
            flat_map images_in cs
            ++ (if bool_decide
                     (0 < length
                            (flat_map
                               (fun c => spans_in c st (default_null lk)) cs))
                then [Block (block_type tag)
                        (flat_map (fun c => spans_in c st (default_null lk))
                                  cs)]
                else [])
        | None => []
        end
      else
        match children with
        | Some cs => flat_map (fun c => emitted c st (default_null lk)) cs
        | None => []
        end
  end.

(** An image below a line break, inside a paragraph. *)
Definition image_under_br : DomNode :=
  elem "p"
    [DElem "br" None
       (Some [DElem "img" (Some {[ "src" := Str "x.png" ]}) None])].

(** Two paragraphs under a wrapper, the second with an image. *)
Definition image_after_paragraph : DomNode :=
  elem "root" [c1_input; image_in_paragraph].

(** ** Upstream client *)

(** [error.message] *)
Definition message (e : exn) : string :=
  match e with
  | TypeError prop =>
      ("Cannot read properties of undefined (reading '" ++ prop ++ "')")%string
  | Error msg => msg
  | RangeError => "Maximum call stack size exceeded"
  end.

(** The parsed upstream envelopes, [parsed.response.artist] and
    [parsed.response.song], with the fields the client reads. *)
Record UpArtist := {
  up_artist_name : value;
  up_artist_description_dom : DomNode;
  up_artist_url : value
}.

Record UpAlbum := {
  up_album_name : value;
  up_album_primary_artists : list object;
  up_album_release_date_for_display : value;
  up_album_url : value
}.

Record UpSong := {
  up_artist_names : value;
  up_song_description_dom : DomNode;
  up_title : value;
  up_language : value;
  up_release_date : value;
  up_title_with_featured : value;
  up_song_url : value;
  up_song_art_primary_color : value;
  up_song_art_secondary_color : value;
  up_album : option UpAlbum
}.

Inductive Parsed :=
| ParsedArtist (artist : UpArtist)
| ParsedSong (song : UpSong).

(** The upstream HTTP response: [res.ok], [res.status], [res.statusText]
    and [await res.json()]. *)
Record UpResponse := {
  ok : bool;
  up_status : N;
  statusText : string;
  json : Parsed
}.

(** The records the client returns. *)
Record ArtistRecord := {
  artist_name : value;
  artist_description : list Item;
  artist_url : value
}.

Record AlbumRecord := {
  album_name : value;
  album_primary_artist : value;
  album_release_date : value;
  album_url : value
}.

Record SongRecord := {
  artist_names : value;
  song_description : list Item;
  title : value;
  language : value;
  release_date : value;
  title_with_featured : value;
  song_url : value;
  primary_color : value;
  secondary_color : value;
  album : option AlbumRecord
}.

(** ** HTTP data of the worker *)

Abbreviation Headers := (gmap string string).

(** The value handed to [JSON.stringify] for a response body. *)
Inductive Data :=
| DataError (error : string)
| DataInfo (song artist : string)
| DataSong (s : SongRecord)
| DataArtist (a : ArtistRecord).

Inductive Body :=
| BodyNull
| BodyText (s : string)
| BodyJson (data : Data).

Record Response := mkResponse {
  status : N;
  headers : Headers;
  body : Body
}.

(** The inbound request: [request.method], [new URL(request.url).pathname]
    and [request.headers]. Header names are compared as the code spells
    them. *)
Record Request := {
  method : string;
  pathname : string;
  req_headers : Headers
}.

(** What the handler does to its collaborators, in order. *)
Inductive Event :=
| EvRateLimit (key : string)
| EvCacheMatch (request : Request)
| EvUpstream (url authorization : string)
| EvCachePut (request : Request) (response : Response).

(** The collaborators: the global [fetch] and [caches.default.match]. *)
Record World := {
  http_fetch : string -> string -> UpResponse;
  cache_match : Request -> option Response
}.

(** [env]: a binding that is not configured reads as [undefined];
    [RATE_LIMITER.limit({key})] answers [success]. *)
Record Env := {
  PROXY_SECRET : option string;
  RATE_LIMITER : option (string -> bool);
  GENIUS_ACCESS_TOKEN : option string
}.

(** [headers.get(name)]: the value or [null]. *)
Definition headers_get (h : Headers) (name : string) : value :=
  match h !! name with
  | Some v => Str v
  | None => Null
  end.

(** An [env] binding as a value. *)
Definition binding (b : option string) : value :=
  match b with
  | Some v => Str v
  | None => Undefined
  end.

(** [!v] for a string binding. *)
Definition falsy (b : option string) : bool :=
  match b with
  | None => true
  | Some v => bool_decide (v = "")
  end.

Definition cors : Headers := {[ "Access-Control-Allow-Origin" := "*" ]}.

Definition json_cors : Headers :=
  <[ "Content-Type" := "application/json" ]> cors.

(** [new Response(text, {status, headers})]: a string body with no
    [Content-Type] given gets the default one. *)
Definition text_response (st : N) (h : Headers) (b : Body) : Response :=
  mkResponse st
    (match h !! "Content-Type" with
     | Some _ => h
     | None => <[ "Content-Type" := "text/plain;charset=UTF-8" ]> h
     end) b.

Definition is_digit (c : ascii) : bool :=
  (("0" <=? c) && (c <=? "9"))%char.

Fixpoint all_digits (s : string) : bool :=
  match s with
  | EmptyString => true
  | String c s' => is_digit c && all_digits s'
  end.

Fixpoint strip_prefix (p s : string) : option string :=
  match p, s with
  | EmptyString, _ => Some s
  | String a p', String b s' =>
      if bool_decide (a = b) then strip_prefix p' s' else None
  | String _ _, EmptyString => None
  end.

(** [path.match(/^<prefix>(\d+)$/)], giving the captured digits. *)
Definition match_id (prefix path : string) : option string :=
  match strip_prefix prefix path with
  | Some id =>
      if negb (bool_decide (id = "")) && all_digits id then Some id else None
  | None => None
  end.

Definition fetchGeniusArtist (w : World) (artistId geniusToken : string)
    : res ArtistRecord * list Event :=
  let url := ("https://api.genius.com/artists/" ++ artistId)%string in
  let authorization := ("Bearer " ++ geniusToken)%string in
  let r := http_fetch w url authorization in
  (if negb (ok r) then
     Throw (Error ("Genius API error: " ++ pretty (up_status r) ++ " "
                     ++ statusText r)%string)
   else
     match json r with
     | ParsedArtist artist =>
         match flattenGenius (up_artist_description_dom artist) with
         | Ok description =>
             Ok {| artist_name := up_artist_name artist;
                   artist_description := description;
                   artist_url := up_artist_url artist |}
         | Throw e => Throw e
         end
     | ParsedSong _ => Throw (TypeError "name")
     end,
   [EvUpstream url authorization]).

Definition fetchGeniusSong (w : World) (songId geniusToken : string)
    : res SongRecord * list Event :=
  let url := ("https://api.genius.com/songs/" ++ songId)%string in
  let authorization := ("Bearer " ++ geniusToken)%string in
  let r := http_fetch w url authorization in
  (if negb (ok r) then
     Throw (Error ("Genius API error: " ++ pretty (up_status r) ++ " "
                     ++ statusText r)%string)
   else
     match json r with
     | ParsedSong song =>
         match flattenGenius (up_song_description_dom song) with
         | Ok description =>
             match
               match up_album song with
               | Some a =>
                   match up_album_primary_artists a with
                   | first :: _ =>
                       Ok (Some
                             {| album_name := up_album_name a;
                                album_primary_artist := get first "name";
                                album_release_date :=
                                  up_album_release_date_for_display a;
                                album_url := up_album_url a |})
                   | [] => Throw (TypeError "name")
                   end
               | None => Ok None
               end
             with
             | Ok alb =>
                 Ok {| artist_names := up_artist_names song;
                       song_description := description;
                       title := up_title song;
                       language := up_language song;
                       release_date := up_release_date song;
                       title_with_featured := up_title_with_featured song;
                       song_url := up_song_url song;
                       primary_color := up_song_art_primary_color song;
                       secondary_color := up_song_art_secondary_color song;
                       album := alb |}
             | Throw e => Throw e
             end
         | Throw e => Throw e
         end
     | ParsedArtist _ => Throw (TypeError "artist_names")
     end,
   [EvUpstream url authorization]).

(** ** The request handler of [src/worker.js] (gated, cached) *)

Module Gated.

Definition fetch (w : World) (request : Request) (env : Env)
    : Response * list Event :=
  (* 1. Security check *)
  let clientSecret := headers_get (req_headers request) "X-Proxy-Secret" in
  if negb (strict_eq clientSecret (binding (PROXY_SECRET env))) then
    (mkResponse 401 json_cors (BodyJson (DataError "Unauthorized")), [])
  else
    (* 2. Rate limiting *)
    let '(limited, t2) :=
      match RATE_LIMITER env with
      | Some limit =>
          let clientIP :=
            match req_headers request !! "CF-Connecting-IP" with
            | Some ip => if bool_decide (ip = "") then "anonymous" else ip
            | None => "anonymous"
            end in
          (negb (limit clientIP), [EvRateLimit clientIP])
      | None => (false, [])
      end in
    if limited then
      (mkResponse 429 json_cors (BodyJson (DataError "Too Many Requests")), t2)
    else
      (* 3. Cache match *)
      let t3 := t2 ++ [EvCacheMatch request] in
      match cache_match w request with
      | Some response =>
          (mkResponse (status response)
                      (<[ "X-Proxy-Cache" := "HIT" ]> (headers response))
                      (body response), t3)
      | None =>
          (* 4. OPTIONS and the method check *)
          if bool_decide (method request = "OPTIONS") then
            (mkResponse 200
               (<[ "Access-Control-Allow-Methods" := "GET, OPTIONS" ]>
                (<[ "Access-Control-Allow-Headers" :=
                      "Content-Type, X-Proxy-Secret" ]>
                 (<[ "Access-Control-Max-Age" := "86400" ]> cors)))
               BodyNull, t3)
          else if negb (bool_decide (method request = "GET")) then
            (text_response 405 cors (BodyText "Method not allowed"), t3)
          else
            (* 5. Logic execution *)
            let path := pathname request in
            if falsy (GENIUS_ACCESS_TOKEN env) then
              (text_response 500 ∅
                 (BodyText "GENIUS_ACCESS_TOKEN not configured"), t3)
            else
              let geniusToken := default "" (GENIUS_ACCESS_TOKEN env) in
              let songMatch := match_id "/song/" path in
              let artistMatch := match_id "/artist/" path in
              (* 6. the 200 response, and its write to the cache *)
              let respond (data : Data) (t : list Event) :=
                let response :=
                  mkResponse 200
                    (<[ "Cache-Control" :=
                          "public, s-maxage=86400, max-age=3600" ]>
                     (<[ "X-Proxy-Cache" := "MISS" ]> json_cors))
                    (BodyJson data) in
                (response, t ++ [EvCachePut request response]) in
              let caught (e : exn) (t : list Event) :=
                (mkResponse 500 json_cors (BodyJson (DataError (message e))),
                 t) in
              match songMatch, artistMatch with
              | Some id, _ =>
                  let '(r, t5) := fetchGeniusSong w id geniusToken in
                  match r with
                  | Ok data => respond (DataSong data) (t3 ++ t5)
                  | Throw e => caught e (t3 ++ t5)
                  end
              | None, Some id =>
                  let '(r, t5) := fetchGeniusArtist w id geniusToken in
                  match r with
                  | Ok data => respond (DataArtist data) (t3 ++ t5)
                  | Throw e => caught e (t3 ++ t5)
                  end
              | None, None =>
                  if bool_decide (path = "/") || bool_decide (path = "") then
                    respond (DataInfo "/song/{id}" "/artist/{id}") t3
                  else
                    (text_response 404 ∅ (BodyJson (DataError "Not found")),
                     t3)
              end
      end.

End Gated.

(** ** The request handler of the earlier worker (no gate, no cache) *)

Module Ungated.

Definition or_default (m fallback : string) : string :=
  if bool_decide (m = "") then fallback else m.

Definition fetch (w : World) (request : Request) (env : Env)
    : Response * list Event :=
  if bool_decide (method request = "OPTIONS") then
    (mkResponse 200
       (<[ "Access-Control-Allow-Methods" := "GET, OPTIONS" ]>
        (<[ "Access-Control-Allow-Headers" := "Content-Type" ]>
         (<[ "Access-Control-Max-Age" := "86400" ]> cors)))
       BodyNull, [])
  else if negb (bool_decide (method request = "GET")) then
    (text_response 405 cors (BodyText "Method not allowed"), [])
  else
    let path := pathname request in
    if falsy (GENIUS_ACCESS_TOKEN env) then
      (text_response 500 cors
         (BodyText "GENIUS_ACCESS_TOKEN not configured"), [])
    else
      let geniusToken := default "" (GENIUS_ACCESS_TOKEN env) in
      let cached : Headers :=
        <[ "Cache-Control" := "public, max-age=3600" ]> json_cors in
      match match_id "/song/" path with
      | Some songId =>
          let '(r, t) := fetchGeniusSong w songId geniusToken in
          match r with
          | Ok data => (mkResponse 200 cached (BodyJson (DataSong data)), t)
          | Throw e =>
              (mkResponse 500 json_cors
                 (BodyJson
                    (DataError (or_default (message e)
                                           "Failed to fetch song"))), t)
          end
      | None =>
          match match_id "/artist/" path with
          | Some artistId =>
              let '(r, t) := fetchGeniusArtist w artistId geniusToken in
              match r with
              | Ok data =>
                  (mkResponse 200 cached (BodyJson (DataArtist data)), t)
              | Throw e =>
                  (mkResponse 500 json_cors
                     (BodyJson
                        (DataError (or_default (message e)
                                               "Failed to fetch artist"))), t)
              end
          | None =>
              if bool_decide (path = "/") || bool_decide (path = "") then
                (mkResponse 200 json_cors
                   (BodyJson (DataInfo "/song/{songId}" "/artist/{artistId}")),
                 [])
              else
                (mkResponse 404 json_cors
                   (BodyJson
                      (DataError "Not found. Use /song/{id} or /artist/{id}")),
                 [])
          end
      end.

End Ungated.

(** ** Inputs of the pipeline scenarios *)

(** Collaborators with an empty cache and an upstream that is down. *)
Definition quiet_world : World :=
  {| http_fetch := fun _ _ =>
       {| ok := false; up_status := 503;
          statusText := "Service Unavailable";
          json := ParsedArtist
                    {| up_artist_name := Null;
                       up_artist_description_dom := DNull;
                       up_artist_url := Null |} |};
     cache_match := fun _ => None |}.

Definition configured_env : Env :=
  {| PROXY_SECRET := Some "s3cret";
     RATE_LIMITER := None;
     GENIUS_ACCESS_TOKEN := Some "token" |}.

Definition tokenless_env : Env :=
  {| PROXY_SECRET := Some "s3cret";
     RATE_LIMITER := None;
     GENIUS_ACCESS_TOKEN := None |}.

(** [GET path] with the right secret. *)
Definition authorized_get (path : string) : Request :=
  {| method := "GET"; pathname := path;
     req_headers := {[ "X-Proxy-Secret" := "s3cret" ]} |}.

(** [GET path] with no secret header. *)
Definition anonymous_get (path : string) : Request :=
  {| method := "GET"; pathname := path; req_headers := ∅ |}.

(** ** Vocabulary of the further properties *)

(** A run that started from [s] instead of the empty [result]: the records
    it pushed come after [s]. *)
Definition after {A} (s : list Item) (r : res (A * list Item))
    : res (A * list Item) :=
  match r with
  | Ok (a, out) => Ok (a, s ++ out)
  | Throw e => Throw e
  end.

(** [leaf_link node lk s l]: the text [s] is a leaf of [node], and [l] is
    the link that reaches it when [lk] is the link around [node]: each
    [a] node on the way down replaces the link by its own [href], and by
    [null] when it has none. *)
Inductive leaf_link : DomNode -> value -> string -> value -> Prop :=
| link_here (s : string) (lk : value) : leaf_link (DText s) lk s lk
| link_below (tag : string) (attributes : option object)
    (cs : list DomNode) (c : DomNode) (lk : value) (s : string) (l : value) :
    c ∈ cs ->
    leaf_link c
      (if bool_decide (tag = "a")
       then default_null (get (default ∅ attributes) "href")
       else lk) s l ->
    leaf_link (DElem tag attributes (Some cs)) lk s l.

(** A child that [walk] skips: [null] or the empty string. *)
Definition is_blank (node : DomNode) : bool :=
  match node with
  | DNull => true
  | DText s => bool_decide (s = "")
  | DElem _ _ _ => false
  end.

(** An anchor without [href] inside an anchor with one. *)
Definition nested_anchors : DomNode :=
  elem "p"
    [DElem "a" (Some {[ "href" := Str "https://genius.com" ]})
       (Some [DElem "a" (Some ∅) (Some [DText "inner"])])].

(** The request carries the configured secret. *)
Definition authorized (request : Request) (env : Env) : Prop :=
  exists secret,
    req_headers request !! "X-Proxy-Secret" = Some secret
    /\ PROXY_SECRET env = Some secret.

(** The key handed to the rate limiter:
    [request.headers.get("CF-Connecting-IP") || "anonymous"]. *)
Definition client_key (request : Request) : string :=
  match req_headers request !! "CF-Connecting-IP" with
  | Some ip => if bool_decide (ip = "") then "anonymous" else ip
  | None => "anonymous"
  end.

(** The rate limiter, when there is one, lets the request through. *)
Definition limiter_passes (request : Request) (env : Env) : Prop :=
  match RATE_LIMITER env with
  | Some limit => limit (client_key request) = true
  | None => True
  end.

(** The call of the rate limiter, when there is one. *)
Definition limiter_events (request : Request) (env : Env) : list Event :=
  match RATE_LIMITER env with
  | Some _ => [EvRateLimit (client_key request)]
  | None => []
  end.

(** The upstream token is configured: set and not empty. *)
Definition token_is (env : Env) (token : string) : Prop :=
  GENIUS_ACCESS_TOKEN env = Some token /\ token <> "".

(** The fresh 200 response of the gated worker. *)
Definition fresh (data : Data) : Response :=
  mkResponse 200
    (<[ "Cache-Control" := "public, s-maxage=86400, max-age=3600" ]>
     (<[ "X-Proxy-Cache" := "MISS" ]> json_cors))
    (BodyJson data).

Definition songs_url (id : string) : string :=
  ("https://api.genius.com/songs/" ++ id)%string.

Definition artists_url (id : string) : string :=
  ("https://api.genius.com/artists/" ++ id)%string.

Definition bearer (token : string) : string := ("Bearer " ++ token)%string.

(** An upstream that answers every request with one artist whose
    description holds an anchor without attributes. *)
Definition broken_anchor : DomNode := elem "p" [elem "a" [DText "x"]].

Definition broken_artist_world : World :=
  {| http_fetch := fun _ _ =>
       {| ok := true; up_status := 200; statusText := "OK";
          json := ParsedArtist
                    {| up_artist_name := Str "A";
                       up_artist_description_dom := broken_anchor;
                       up_artist_url := Null |} |};
     cache_match := fun _ => None |}.

(** An upstream that answers with a song whose album lists no primary
    artist. *)
Definition artistless_album : UpAlbum :=
  {| up_album_name := Str "L";
     up_album_primary_artists := [];
     up_album_release_date_for_display := Null;
     up_album_url := Null |}.

Definition artistless_song : UpSong :=
  {| up_artist_names := Str "A";
     up_song_description_dom := DNull;
     up_title := Str "T";
     up_language := Null;
     up_release_date := Null;
     up_title_with_featured := Null;
     up_song_url := Null;
     up_song_art_primary_color := Null;
     up_song_art_secondary_color := Null;
     up_album := Some artistless_album |}.

Definition artistless_album_world : World :=
  {| http_fetch := fun _ _ =>
       {| ok := true; up_status := 200; statusText := "OK";
          json := ParsedSong artistless_song |};
     cache_match := fun _ => None |}.

(** An upstream that answers with a song without album. *)
Definition single_song : UpSong :=
  {| up_artist_names := Str "A";
     up_song_description_dom := c1_input;
     up_title := Str "T";
     up_language := Str "en";
     up_release_date := Null;
     up_title_with_featured := Str "T";
     up_song_url := Null;
     up_song_art_primary_color := Null;
     up_song_art_secondary_color := Null;
     up_album := None |}.

Definition single_world : World :=
  {| http_fetch := fun _ _ =>
       {| ok := true; up_status := 200; statusText := "OK";
          json := ParsedSong single_song |};
     cache_match := fun _ => None |}.

(** A world whose cache holds a response for every request. *)
Definition cached_world (r : Response) : World :=
  {| http_fetch := http_fetch quiet_world;
     cache_match := fun _ => Some r |}.

(** An environment whose rate limiter refuses everyone. *)
Definition throttled_env : Env :=
  {| PROXY_SECRET := Some "s3cret";
     RATE_LIMITER := Some (fun _ => false);
     GENIUS_ACCESS_TOKEN := Some "token" |}.

(** * Properties *)

(** ** Induction over DOM trees *)

Lemma DomNode_tree_ind (P : DomNode -> Prop) :
  P DNull ->
  (forall s, P (DText s)) ->
  (forall tag attributes children,
      Forall P (default [] children) -> P (DElem tag attributes children)) ->
  forall node, P node.
Proof.
  intros Hnull Htext Helem.
  fix IH 1. intros [ | s | tag attributes children].
  - exact Hnull.
  - apply Htext.
  - apply Helem. destruct children as [cs | ]; [ | constructor].
    simpl. induction cs as [ | c cs IHcs]; constructor.
    + apply IH.
    + exact IHcs.
Qed.

(** ** Equations of [walk], one per branch of the source *)

Lemma walk_unfold node st lk ins :
  walk node st lk ins = walk_body walk node st lk ins.
Proof. destruct node; reflexivity. Qed.

Lemma walk_default node st lk ins :
  walk node st (default_null lk) ins = walk node st lk ins.
Proof. rewrite !walk_unfold. unfold walk_body. by destruct lk. Qed.

Lemma walk_text_leaf t st lk ins :
  walk (DText t) st lk ins
  = if bool_decide (t = "") then ret []
    else ret [mkSpan t st (default_null lk)].
Proof. reflexivity. Qed.

Lemma walk_br attributes children st lk ins :
  walk (DElem "br" attributes children) st lk ins = ret [br_span].
Proof. reflexivity. Qed.

Lemma walk_img attributes children st lk ins res :
  walk (DElem "img" attributes children) st lk ins res =
  match attributes with
  | Some _ => Ok ([], res ++ [image_of attributes])
  | None => Throw (TypeError "src")
  end.
Proof. destruct attributes; reflexivity. Qed.

Lemma walk_inline tag attributes children st lk ins :
  tag <> "br" -> tag <> "img" ->
  includes ["em"; "i"; "b"; "strong"; "a"] tag = true ->
  walk (DElem tag attributes children) st lk ins =
  (let! newLink :=
     (if bool_decide (tag = "a") then lift (get_prop attributes "href")
      else ret (default_null lk)) in
   walk_children children (st ++ tag_styles tag) newLink true).
Proof.
  intros Hbr Himg Hin. rewrite walk_unfold. unfold walk_body.
  rewrite (bool_decide_eq_false_2 _ Hbr), (bool_decide_eq_false_2 _ Himg), Hin.
  reflexivity.
Qed.

Lemma walk_other tag attributes children st lk ins :
  tag <> "br" -> tag <> "img" ->
  includes ["em"; "i"; "b"; "strong"; "a"] tag = false ->
  walk (DElem tag attributes children) st lk ins =
  (let! childrenSpans :=
     walk_children children st (default_null lk) (is_block_tag tag || ins) in
   if is_block_tag tag && negb ins then
     run! (if bool_decide (0 < length childrenSpans)
           then push (Block (block_type tag) childrenSpans)
           else ret tt) in
     ret []
   else ret childrenSpans).
Proof.
  intros Hbr Himg Hin. rewrite walk_unfold. unfold walk_body.
  rewrite (bool_decide_eq_false_2 _ Hbr), (bool_decide_eq_false_2 _ Himg), Hin.
  unfold walk_children, is_block_tag, block_type.
  destruct (includes ["p"; "blockquote"] tag); reflexivity.
Qed.

(** ** Tags *)

Lemma tag_cases tag :
  tag = "br" \/ tag = "img"
  \/ (tag <> "br" /\ tag <> "img"
      /\ includes ["em"; "i"; "b"; "strong"; "a"] tag = true)
  \/ (tag <> "br" /\ tag <> "img"
      /\ includes ["em"; "i"; "b"; "strong"; "a"] tag = false).
Proof.
  destruct (decide (tag = "br")) as [ | Hbr]; [by left | ].
  destruct (decide (tag = "img")) as [ | Himg]; [by right; left | ].
  destruct (includes ["em"; "i"; "b"; "strong"; "a"] tag) eqn:E; auto 10.
Qed.

Lemma includes_true l tag : includes l tag = true <-> tag ∈ l.
Proof. unfold includes. apply bool_decide_eq_true. Qed.

Lemma includes_false l tag : includes l tag = false <-> tag ∉ l.
Proof. unfold includes. apply bool_decide_eq_false. Qed.

Lemma block_tag_other tag :
  is_block_tag tag = true ->
  tag <> "br" /\ tag <> "img"
  /\ includes ["em"; "i"; "b"; "strong"; "a"] tag = false.
Proof.
  unfold is_block_tag. rewrite includes_true.
  rewrite !elem_of_cons, elem_of_nil.
  intros [-> | [-> | []]]; repeat split; try discriminate; reflexivity.
Qed.

Lemma tag_styles_not_inline tag :
  includes ["em"; "i"; "b"; "strong"; "a"] tag = false -> tag_styles tag = [].
Proof.
  rewrite includes_false. intros H. unfold tag_styles.
  rewrite !not_elem_of_cons in H.
  assert (includes ["em"; "i"] tag = false) as ->
    by (apply includes_false; rewrite !not_elem_of_cons; tauto).
  assert (includes ["b"; "strong"] tag = false) as ->
    by (apply includes_false; rewrite !not_elem_of_cons; tauto).
  reflexivity.
Qed.

(** ** Rules for [bind] and [flatMap] *)

Lemma bind_Ok {A B} (m : M A) (k : A -> M B) s b s' :
  bind m k s = Ok (b, s') ->
  exists a s1, m s = Ok (a, s1) /\ k a s1 = Ok (b, s').
Proof.
  unfold bind. destruct (m s) as [[a s1] | e]; [ | discriminate].
  intros H. exists a, s1. split; [reflexivity | exact H].
Qed.

Lemma bind_Throw {A B} (m : M A) (k : A -> M B) s e :
  bind m k s = Throw e ->
  m s = Throw e \/ exists a s1, m s = Ok (a, s1) /\ k a s1 = Throw e.
Proof.
  unfold bind. destruct (m s) as [[a s1] | e']; [ | intros [= ->]; left; reflexivity].
  intros H. right. exists a, s1. split; [reflexivity | exact H].
Qed.

Lemma bind_ret_r {A} (m : M A) s : bind m ret s = m s.
Proof. unfold bind, ret. by destruct (m s) as [[a s1] | e]. Qed.

Section FlatMap.
Context {A B : Type} (f : A -> M (list B)).

(** A relation [R] that every call of the callback establishes, and its
    closure [RL] over a run of calls, hold of [flatMap] when it returns. *)
Lemma flatMap_Ok
    (R : A -> list Item -> list B -> list Item -> Prop)
    (RL : list A -> list Item -> list B -> list Item -> Prop) :
  (forall s, RL [] s [] s) ->
  (forall x xs s1 ys1 s2 ys2 s3,
      R x s1 ys1 s2 -> RL xs s2 ys2 s3 -> RL (x :: xs) s1 (ys1 ++ ys2) s3) ->
  forall xs,
    Forall (fun x => forall s ys s', f x s = Ok (ys, s') -> R x s ys s') xs ->
    forall s ys s', flatMap f xs s = Ok (ys, s') -> RL xs s ys s'.
Proof.
  intros Hnil Hcons xs Hxs. induction Hxs as [ | x xs Hx _ IH]; intros s ys s' H.
  - inversion H; subst. apply Hnil.
  - simpl in H. apply bind_Ok in H as (ys1 & s1 & H1 & H).
    apply bind_Ok in H as (ys2 & s2 & H2 & H). inversion H; subst.
    eapply Hcons; eauto.
Qed.

(** When every call returns, [flatMap] returns. *)
Lemma flatMap_returns xs :
  Forall (fun x => forall s, exists ys s', f x s = Ok (ys, s')) xs ->
  forall s, exists ys s', flatMap f xs s = Ok (ys, s').
Proof.
  intros Hxs. induction Hxs as [ | x xs Hx _ IH]; intros s.
  - by exists [], s.
  - destruct (Hx s) as (ys1 & s1 & H1). destruct (IH s1) as (ys2 & s2 & H2).
    exists (ys1 ++ ys2), s2. simpl. unfold bind. rewrite H1, H2. reflexivity.
Qed.

(** An exception of [flatMap] is the exception of one of the calls. *)
Lemma flatMap_Throw xs s e :
  flatMap f xs s = Throw e -> exists x s1, x ∈ xs /\ f x s1 = Throw e.
Proof.
  revert s. induction xs as [ | x xs IH]; intros s H; [discriminate | ].
  simpl in H. apply bind_Throw in H as [H | (ys1 & s1 & H1 & H)].
  - exists x, s. split; [left | exact H].
  - apply bind_Throw in H as [H | (ys2 & s2 & H2 & H)]; [ | discriminate].
    destruct (IH _ H) as (y & s' & Hy & Hthrow). exists y, s'.
    split; [by right | exact Hthrow].
Qed.

Lemma flatMap_ext (g : A -> M (list B)) xs :
  Forall (fun x => forall s, f x s = g x s) xs ->
  forall s, flatMap f xs s = flatMap g xs s.
Proof.
  intros Hxs. induction Hxs as [ | x xs Hx _ IH]; intros s; [reflexivity | ].
  simpl. unfold bind. rewrite Hx. destruct (g x s) as [[ys1 s1] | e]; [ | reflexivity].
  rewrite IH. reflexivity.
Qed.

End FlatMap.

(** ** The recursion of [walk] *)

Lemma walk_children_eq children st lk ins :
  walk_children children st lk ins
  = flatMap (fun child => walk child st lk ins) (default [] children).
Proof. destruct children; reflexivity. Qed.

Lemma walk_children_default children st lk ins s :
  walk_children children st (default_null lk) ins s
  = walk_children children st lk ins s.
Proof.
  rewrite !walk_children_eq. apply flatMap_ext. apply Forall_forall.
  intros c _ s'. by rewrite walk_default.
Qed.

Lemma walk_body_ext
    (w1 w2 : DomNode -> list string -> value -> bool -> M (list Span))
    node st lk ins s :
  match node with
  | DElem _ _ children =>
      Forall (fun c => forall st lk ins s, w1 c st lk ins s = w2 c st lk ins s)
             (default [] children)
  | _ => True
  end ->
  walk_body w1 node st lk ins s = walk_body w2 node st lk ins s.
Proof.
  destruct node as [ | t | tag a children]; try reflexivity.
  intros H. unfold walk_body.
  destruct (bool_decide (tag = "br")); [reflexivity | ].
  destruct (bool_decide (tag = "img")); [reflexivity | ].
  destruct children as [cs | ]; [simpl in H | reflexivity].
  destruct (includes ["em"; "i"; "b"; "strong"; "a"] tag).
  - unfold bind.
    destruct ((if bool_decide (tag = "a")
               then lift (get_prop a "href") else ret (default_null lk)) s)
      as [[newLink s1] | e]; [ | reflexivity].
    simpl. apply flatMap_ext.
    eapply Forall_impl; [exact H | ]. intros c Hc s'. apply Hc.
  - unfold bind. simpl.
    rewrite (flatMap_ext _
               (fun child =>
                  w2 child st (default_null lk)
                     (if includes ["p"; "blockquote"] tag then true else ins))
               cs); [reflexivity | ].
    eapply Forall_impl; [exact H | ]. intros c Hc s'. apply Hc.
Qed.

Lemma height_child c children :
  c ∈ default [] children -> height c < height_of_children children.
Proof.
  destruct children as [cs | ]; simpl; [ | by intros ?%elem_of_nil].
  induction 1 as [c cs | c d cs _ IH]; simpl in *; lia.
Qed.

Lemma walk_stack_S frames node st lk ins :
  walk_stack (S frames) node st lk ins
  = walk_body (walk_stack frames) node st lk ins.
Proof. reflexivity. Qed.

Lemma walk_stack_eq node :
  forall frames st lk ins s,
    height node < frames ->
    walk_stack frames node st lk ins s = walk node st lk ins s.
Proof.
  induction node as [ | t | tag a children IH] using DomNode_tree_ind;
    intros [ | frames] st lk ins s Hlt; try lia;
    rewrite walk_stack_S, walk_unfold; try reflexivity.
  apply walk_body_ext. rewrite Forall_forall in IH |- *.
  intros c Hc st' lk' ins' s'. apply IH; [exact Hc | ].
  pose proof (height_child c children Hc) as Hh.
  change (height (DElem tag a children)) with (height_of_children children)
    in Hlt.
  lia.
Qed.

Lemma lift_get_prop_Throw a k (s : list Item) e :
  lift (get_prop a k) s = Throw e -> e = TypeError k.
Proof. destruct a; simpl; congruence. Qed.

(** The only exception [walk] raises is the [TypeError] of reading a
    property of an absent [attributes]. *)
Lemma walk_Throw node :
  forall st lk ins s e,
    walk node st lk ins s = Throw e -> exists prop, e = TypeError prop.
Proof.
  induction node as [ | t | tag a children IH] using DomNode_tree_ind;
    intros st lk ins s e H.
  - discriminate.
  - rewrite walk_text_leaf in H.
    destruct (bool_decide (t = "")); discriminate.
  - rewrite Forall_forall in IH.
    destruct (tag_cases tag)
      as [-> | [-> | [(Hbr & Himg & Hin) | (Hbr & Himg & Hin)]]].
    + discriminate.
    + rewrite walk_img in H. destruct a; [discriminate | ].
      inversion H; eauto.
    + rewrite walk_inline in H by assumption.
      apply bind_Throw in H as [H | (nl & s1 & _ & H)].
      * destruct (bool_decide (tag = "a")); [ | discriminate].
        apply lift_get_prop_Throw in H. eauto.
      * rewrite walk_children_eq in H.
        apply flatMap_Throw in H as (c & s2 & Hc & H). eapply IH; eauto.
    + rewrite walk_other in H by assumption.
      apply bind_Throw in H as [H | (sp & s1 & _ & H)].
      * rewrite walk_children_eq in H.
        apply flatMap_Throw in H as (c & s2 & Hc & H). eapply IH; eauto.
      * destruct (is_block_tag tag && negb ins); [ | discriminate].
        apply bind_Throw in H as [H | (u & s2 & _ & H)]; [ | discriminate].
        destruct (bool_decide (0 < length sp)); discriminate.
Qed.

(** C10. [walk] is defined by structural recursion on the tree, so it
    returns or throws on every finite DOM node; run as the source runs it,
    on a call stack, its recursion never goes deeper than the height of
    the tree: with room for more frames than the tree is high, the run on
    the stack is the run of [walk], and [walk] never ends in the
    stack-overflow [RangeError]. *)
Theorem walk_terminates node frames st lk ins res :
  height node < frames ->
  walk_stack frames node st lk ins res = walk node st lk ins res
  /\ walk node st lk ins res <> Throw RangeError.
Proof.
  intros Hlt. split.
  - apply walk_stack_eq. exact Hlt.
  - intros H. apply walk_Throw in H as [prop H]. discriminate.
Qed.

Lemma walk_terminates_witness :
  walk_stack 3 c1_input [] Null false [] = walk c1_input [] Null false []
  /\ walk c1_input [] Null false [] <> Throw RangeError.
Proof.
  apply (walk_terminates c1_input 3 [] Null false []).
  simpl. lia.
Defined.

(** A stack that is too small for the tree does overflow. *)
Example walk_stack_overflow :
  walk_stack 2 c1_input [] Null false [] = Throw RangeError.
Proof. vm_compute. reflexivity. Qed.

(** ** What [walk] pushes *)

Lemma images_in_other tag a children :
  tag <> "br" -> tag <> "img" ->
  images_in (DElem tag a children)
  = flat_map images_in (default [] children).
Proof.
  intros Hbr Himg. cbn [images_in].
  rewrite (bool_decide_eq_false_2 _ Hbr), (bool_decide_eq_false_2 _ Himg).
  destruct children; reflexivity.
Qed.

Lemma newLink_state tag (a : option object) lk (s : list Item) nl s1 :
  (if bool_decide (tag = "a") then lift (get_prop a "href") else ret lk) s
  = Ok (nl, s1) ->
  s1 = s.
Proof.
  destruct (bool_decide (tag = "a")); [ | by intros [= _ ->]].
  destruct a; simpl; [by intros [= _ ->] | discriminate].
Qed.

(** Children walked inside a block push the image records of their [img]
    nodes, in order, and nothing else. *)
Lemma children_inside cs :
  Forall (fun c => forall st lk s sp s',
              walk c st lk true s = Ok (sp, s') -> s' = s ++ images_in c) cs ->
  forall st lk s sp s',
    flatMap (fun c => walk c st lk true) cs s = Ok (sp, s') ->
    s' = s ++ flat_map images_in cs.
Proof.
  intros Hcs st lk.
  apply (flatMap_Ok _ (fun c s _ s' => s' = s ++ images_in c)
                      (fun cs s _ s' => s' = s ++ flat_map images_in cs)).
  - intros s. simpl. by rewrite app_nil_r.
  - intros c cs' s1 _ s2 _ s3 -> ->. simpl. by rewrite app_assoc.
  - eapply Forall_impl; [exact Hcs | ]. intros c Hc s sp s'. apply Hc.
Qed.

Lemma walk_inside node :
  forall st lk s sp s',
    walk node st lk true s = Ok (sp, s') -> s' = s ++ images_in node.
Proof.
  induction node as [ | t | tag a children IH] using DomNode_tree_ind;
    intros st lk s sp s' H.
  - injection H as _ <-. simpl. by rewrite app_nil_r.
  - rewrite walk_text_leaf in H.
    destruct (bool_decide (t = "")); injection H as _ <-; simpl;
      by rewrite app_nil_r.
  - destruct (tag_cases tag)
      as [-> | [-> | [(Hbr & Himg & Hin) | (Hbr & Himg & Hin)]]].
    + injection H as _ <-. simpl. by rewrite app_nil_r.
    + rewrite walk_img in H. destruct a; [ | discriminate].
      by injection H as _ <-.
    + rewrite walk_inline in H by assumption.
      apply bind_Ok in H as (nl & s1 & Hnl & H).
      apply newLink_state in Hnl as ->.
      rewrite walk_children_eq in H. rewrite images_in_other by assumption.
      eapply children_inside; eauto.
    + rewrite walk_other in H by assumption.
      apply bind_Ok in H as (csp & s1 & Hc & H).
      rewrite orb_true_r, walk_children_eq in Hc.
      rewrite andb_false_r in H. injection H as _ <-.
      rewrite images_in_other by assumption.
      eapply children_inside; eauto.
Qed.

Lemma walk_children_inside children st lk s sp s' :
  walk_children children st lk true s = Ok (sp, s') ->
  s' = s ++ flat_map images_in (default [] children).
Proof.
  rewrite walk_children_eq. apply children_inside.
  apply Forall_forall. intros c _ st' lk' s0 sp0 s0'. apply walk_inside.
Qed.

(** A block tag: the images of its subtree, then at most its own record,
    which holds the spans its children returned. *)
Lemma walk_block tag a children st lk ins s sp s' :
  is_block_tag tag = true ->
  walk (DElem tag a children) st lk ins s = Ok (sp, s') ->
  exists cspans,
    walk_children children st lk true s
    = Ok (cspans, s ++ images_in (DElem tag a children))
    /\ if ins then sp = cspans /\ s' = s ++ images_in (DElem tag a children)
       else sp = []
            /\ s' = s ++ images_in (DElem tag a children)
                      ++ (if bool_decide (0 < length cspans)
                          then [Block (block_type tag) cspans] else []).
Proof.
  intros Hblock H. destruct (block_tag_other tag Hblock) as (Hbr & Himg & Hin).
  rewrite walk_other in H by assumption. rewrite Hblock in H. simpl in H.
  apply bind_Ok in H as (cspans & s1 & Hc & H).
  rewrite walk_children_default in Hc.
  pose proof (walk_children_inside _ _ _ _ _ _ Hc) as ->.
  rewrite images_in_other by assumption.
  exists cspans. split; [exact Hc | ].
  destruct ins; simpl in H.
  - by injection H as <- <-.
  - apply bind_Ok in H as (u & s2 & Hpush & H). injection H as <- <-.
    split; [reflexivity | ].
    destruct (bool_decide (0 < length cspans)).
    + injection Hpush as _ <-. by rewrite <- app_assoc.
    + injection Hpush as _ <-. by rewrite app_nil_r.
Qed.

Lemma forallb_Forall {A} (f : A -> bool) l :
  forallb f l = true <-> Forall (fun x => f x = true) l.
Proof.
  induction l as [ | x l IH]; simpl.
  - split; [constructor | reflexivity].
  - rewrite andb_true_iff, Forall_cons, IH. reflexivity.
Qed.

Lemma walk_images node :
  forall st lk ins s sp s',
    walk node st lk ins s = Ok (sp, s') ->
    List.filter is_image s' = List.filter is_image s ++ images_in node.
Proof.
  induction node as [ | t | tag a children IH] using DomNode_tree_ind;
    intros st lk ins s sp s' H.
  - injection H as _ <-. simpl. by rewrite app_nil_r.
  - rewrite walk_text_leaf in H.
    destruct (bool_decide (t = "")); injection H as _ <-; simpl;
      by rewrite app_nil_r.
  - assert (forall st lk ins s sp s',
               flatMap (fun c => walk c st lk ins) (default [] children) s
               = Ok (sp, s') ->
               List.filter is_image s'
               = List.filter is_image s
                   ++ flat_map images_in (default [] children)) as Hcs.
    { intros st0 lk0 ins0.
      apply (flatMap_Ok _
               (fun c s _ s' =>
                  List.filter is_image s'
                  = List.filter is_image s ++ images_in c)
               (fun cs s _ s' =>
                  List.filter is_image s'
                  = List.filter is_image s ++ flat_map images_in cs)).
      - intros s0. simpl. by rewrite app_nil_r.
      - intros c cs' s1 _ s2 _ s3 H1 H2. simpl.
        by rewrite H2, H1, app_assoc.
      - eapply Forall_impl; [exact IH | ]. intros c Hc s0 sp0 s0'. apply Hc. }
    destruct (tag_cases tag)
      as [-> | [-> | [(Hbr & Himg & Hin) | (Hbr & Himg & Hin)]]].
    + injection H as _ <-. simpl. by rewrite app_nil_r.
    + rewrite walk_img in H. destruct a; [ | discriminate].
      injection H as _ <-. by rewrite List.filter_app.
    + rewrite walk_inline in H by assumption.
      apply bind_Ok in H as (nl & s1 & Hnl & H).
      apply newLink_state in Hnl as ->.
      rewrite walk_children_eq in H. rewrite images_in_other by assumption.
      eapply Hcs; eauto.
    + rewrite walk_other in H by assumption.
      apply bind_Ok in H as (csp & s1 & Hc & H).
      rewrite walk_children_eq in Hc. apply Hcs in Hc.
      rewrite images_in_other by assumption. rewrite <- Hc.
      destruct (is_block_tag tag && negb ins);
        [ | by injection H as _ <-].
      apply bind_Ok in H as (u & s2 & Hpush & H). injection H as _ <-.
      destruct (bool_decide (0 < length csp)); injection Hpush as _ <-.
      * rewrite List.filter_app. simpl. by rewrite app_nil_r.
      * reflexivity.
Qed.

Lemma walk_nonempty node :
  forall st lk ins s sp s',
    walk node st lk ins s = Ok (sp, s') ->
    Forall spans_nonempty s -> Forall spans_nonempty s'.
Proof.
  induction node as [ | t | tag a children IH] using DomNode_tree_ind;
    intros st lk ins s sp s' H Hs.
  - by injection H as _ <-.
  - rewrite walk_text_leaf in H.
    by destruct (bool_decide (t = "")); injection H as _ <-.
  - assert (forall st lk ins s sp s',
               flatMap (fun c => walk c st lk ins) (default [] children) s
               = Ok (sp, s') ->
               Forall spans_nonempty s -> Forall spans_nonempty s') as Hcs.
    { intros st0 lk0 ins0.
      apply (flatMap_Ok _
               (fun _ s _ s' =>
                  Forall spans_nonempty s -> Forall spans_nonempty s')
               (fun _ s _ s' =>
                  Forall spans_nonempty s -> Forall spans_nonempty s')).
      - auto.
      - auto.
      - eapply Forall_impl; [exact IH | ]. intros c Hc s0 sp0 s0'. apply Hc. }
    destruct (tag_cases tag)
      as [-> | [-> | [(Hbr & Himg & Hin) | (Hbr & Himg & Hin)]]].
    + by injection H as _ <-.
    + rewrite walk_img in H. destruct a; [ | discriminate].
      injection H as _ <-. apply Forall_app. split; [exact Hs | ].
      by repeat constructor.
    + rewrite walk_inline in H by assumption.
      apply bind_Ok in H as (nl & s1 & Hnl & H).
      apply newLink_state in Hnl as ->.
      rewrite walk_children_eq in H. eapply Hcs; eauto.
    + rewrite walk_other in H by assumption.
      apply bind_Ok in H as (csp & s1 & Hc & H).
      rewrite walk_children_eq in Hc. pose proof (Hcs _ _ _ _ _ _ Hc Hs) as Hs1.
      destruct (is_block_tag tag && negb ins);
        [ | by injection H as _ <-].
      apply bind_Ok in H as (u & s2 & Hpush & H). injection H as _ <-.
      destruct (bool_decide (0 < length csp)) eqn:Hlen;
        injection Hpush as _ <-; [ | exact Hs1].
      apply Forall_app. split; [exact Hs1 | ].
      repeat constructor. simpl. apply bool_decide_eq_true in Hlen.
      intros ->. simpl in Hlen. lia.
Qed.

Lemma walk_no_emit node :
  no_block_or_image node = true ->
  forall st lk ins s sp s', walk node st lk ins s = Ok (sp, s') -> s' = s.
Proof.
  induction node as [ | t | tag a children IH] using DomNode_tree_ind;
    intros Hno st lk ins s sp s' H.
  - by injection H as _ <-.
  - rewrite walk_text_leaf in H.
    by destruct (bool_decide (t = "")); injection H as _ <-.
  - cbn [no_block_or_image] in Hno. apply andb_true_iff in Hno as [Htag Hno].
    apply negb_true_iff, includes_false in Htag.
    rewrite !not_elem_of_cons in Htag. destruct Htag as (Hp & Hq & Himg & _).
    assert (forallb no_block_or_image (default [] children) = true) as Hno'
      by (destruct children; [exact Hno | reflexivity]).
    apply forallb_Forall in Hno'.
    assert (forall st lk ins s sp s',
               flatMap (fun c => walk c st lk ins) (default [] children) s
               = Ok (sp, s') -> s' = s) as Hcs.
    { intros st0 lk0 ins0.
      apply (flatMap_Ok _ (fun _ s _ s' => s' = s) (fun _ s _ s' => s' = s)).
      - reflexivity.
      - by intros c cs' s1 _ s2 _ s3 -> ->.
      - apply Forall_forall. intros c Hc s0 sp0 s0'.
        rewrite Forall_forall in IH, Hno'. apply IH; auto. }
    destruct (decide (tag = "br")) as [-> | Hbr]; [by injection H as _ <- | ].
    destruct (includes ["em"; "i"; "b"; "strong"; "a"] tag) eqn:Hin.
    + rewrite walk_inline in H by assumption.
      apply bind_Ok in H as (nl & s1 & Hnl & H).
      apply newLink_state in Hnl as ->.
      rewrite walk_children_eq in H. eapply Hcs; eauto.
    + rewrite walk_other in H by assumption.
      apply bind_Ok in H as (csp & s1 & Hc & H).
      rewrite walk_children_eq in Hc. apply Hcs in Hc as ->.
      assert (is_block_tag tag = false) as Hb
        by (apply includes_false; rewrite !not_elem_of_cons;
            repeat split; auto using not_elem_of_nil).
      rewrite Hb in H. by injection H as _ <-.
Qed.

Lemma walk_returns node :
  attrs_ok node = true ->
  forall st lk ins s, exists sp s', walk node st lk ins s = Ok (sp, s').
Proof.
  induction node as [ | t | tag a children IH] using DomNode_tree_ind;
    intros Hok st lk ins s.
  - by exists [], s.
  - simpl. unfold walk_body. destruct (bool_decide (t = "")); eauto.
  - assert (forall st lk ins s,
               tag <> "br" -> tag <> "img" ->
               exists sp s',
                 walk_children children st lk ins s = Ok (sp, s')) as Hcs.
    { intros st0 lk0 ins0 s0 Hbr Himg. rewrite walk_children_eq.
      apply flatMap_returns. cbn [attrs_ok] in Hok.
      rewrite (bool_decide_eq_false_2 _ Hbr), (bool_decide_eq_false_2 _ Himg)
        in Hok.
      apply andb_true_iff in Hok as [_ Hok].
      assert (forallb attrs_ok (default [] children) = true) as Hok'
        by (destruct children; [exact Hok | reflexivity]).
      apply forallb_Forall in Hok'. apply Forall_forall. intros c Hc s1.
      rewrite Forall_forall in IH, Hok'. apply IH; auto. }
    destruct (tag_cases tag)
      as [-> | [-> | [(Hbr & Himg & Hin) | (Hbr & Himg & Hin)]]].
    + by exists [br_span], s.
    + rewrite walk_img. simpl in Hok. apply bool_decide_eq_true in Hok.
      destruct Hok as [o ->]. eauto.
    + rewrite walk_inline by assumption. unfold bind.
      assert (exists nl,
                 (if bool_decide (tag = "a") then lift (get_prop a "href")
                  else ret (default_null lk)) s = Ok (nl, s)) as [nl ->].
      { cbn [attrs_ok] in Hok.
        rewrite (bool_decide_eq_false_2 _ Hbr), (bool_decide_eq_false_2 _ Himg)
          in Hok.
        apply andb_true_iff in Hok as [Hok _].
        destruct (bool_decide (tag = "a")); [ | by exists (default_null lk)].
        apply bool_decide_eq_true in Hok. destruct Hok as [o ->].
        by exists (get o "href"). }
      by apply Hcs.
    + rewrite walk_other by assumption. unfold bind.
      destruct (Hcs st (default_null lk) (is_block_tag tag || ins) s Hbr Himg)
        as (csp & s1 & ->).
      destruct (is_block_tag tag && negb ins); [ | by exists csp, s1].
      destruct (bool_decide (0 < length csp)); simpl; eauto.
Qed.

(** ** Where the styles of a span come from *)

Lemma output_spans_app out1 out2 :
  output_spans (out1 ++ out2) = output_spans out1 ++ output_spans out2.
Proof. apply List.flat_map_app. Qed.

Lemma styled_from_child tag a children c st x :
  c ∈ default [] children ->
  styled_from c (st ++ tag_styles tag) x ->
  styled_from (DElem tag a children) st x.
Proof.
  intros Hc [-> | (path & Hpath & Hst)]; [by left | right].
  destruct children as [cs | ]; [ | by apply elem_of_nil in Hc].
  exists (tag :: path). split.
  - econstructor; eauto.
  - rewrite Hst. simpl. by rewrite app_assoc.
Qed.

Lemma walk_styles node :
  forall st lk ins s sp s',
    walk node st lk ins s = Ok (sp, s') ->
    (forall x, x ∈ sp -> styled_from node st x)
    /\ (forall x, x ∈ output_spans s' ->
                  x ∈ output_spans s \/ styled_from node st x).
Proof.
  induction node as [ | t | tag a children IH] using DomNode_tree_ind;
    intros st lk ins s sp s' H.
  - injection H as <- <-. split; [by intros x ?%elem_of_nil | auto].
  - rewrite walk_text_leaf in H.
    destruct (bool_decide (t = "")); injection H as <- <-;
      (split; [ | auto]); intros x Hx; [by apply elem_of_nil in Hx | ].
    apply list_elem_of_singleton in Hx as ->. right. exists []. split.
    + constructor.
    + simpl. by rewrite app_nil_r.
  - set (node := DElem tag a children).
    assert (forall st' lk ins s sp s',
               st' = st ++ tag_styles tag ->
               flatMap (fun c => walk c st' lk ins) (default [] children) s
               = Ok (sp, s') ->
               (forall x, x ∈ sp -> styled_from node st x)
               /\ (forall x, x ∈ output_spans s' ->
                             x ∈ output_spans s \/ styled_from node st x))
      as Hcs.
    { intros st' lk0 ins0 s0 sp0 s0' -> Hrun. revert s0 sp0 s0' Hrun.
      apply (flatMap_Ok _
               (fun _ s ys s' =>
                  (forall x, x ∈ ys -> styled_from node st x)
                  /\ (forall x, x ∈ output_spans s' ->
                                x ∈ output_spans s \/ styled_from node st x))
               (fun _ s ys s' =>
                  (forall x, x ∈ ys -> styled_from node st x)
                  /\ (forall x, x ∈ output_spans s' ->
                                x ∈ output_spans s \/ styled_from node st x))).
      - intros s0. split; [by intros x ?%elem_of_nil | auto].
      - intros c cs' s1 ys1 s2 ys2 s3 [Hy1 Ho1] [Hy2 Ho2]. split.
        + intros x [Hx | Hx]%elem_of_app; auto.
        + intros x Hx. destruct (Ho2 x Hx); auto.
      - apply Forall_forall. intros c Hc s0 ys s0' Hrun.
        rewrite Forall_forall in IH.
        destruct (IH c Hc _ _ _ _ _ _ Hrun) as [Hy Ho]. split.
        + intros x Hx. eapply styled_from_child; eauto.
        + intros x Hx. destruct (Ho x Hx); [by left | right].
          eapply styled_from_child; eauto. }
    destruct (tag_cases tag)
      as [Htag | [Htag | [(Hbr & Himg & Hin) | (Hbr & Himg & Hin)]]].
    + subst tag. injection H as <- <-. split; [ | auto].
      intros x Hx. apply list_elem_of_singleton in Hx as ->. by left.
    + subst tag. rewrite walk_img in H. destruct a; [ | discriminate].
      injection H as <- <-. split; [by intros x ?%elem_of_nil | ].
      intros x Hx. left. rewrite output_spans_app in Hx. simpl in Hx.
      by rewrite app_nil_r in Hx.
    + rewrite walk_inline in H by assumption.
      apply bind_Ok in H as (nl & s1 & Hnl & H).
      apply newLink_state in Hnl as ->.
      rewrite walk_children_eq in H. eapply Hcs; eauto.
    + rewrite walk_other in H by assumption.
      apply bind_Ok in H as (csp & s1 & Hc & H).
      rewrite walk_children_eq in Hc.
      apply (Hcs st) in Hc as [Hy Ho];
        [ | by rewrite tag_styles_not_inline, app_nil_r].
      destruct (is_block_tag tag && negb ins);
        [ | by injection H as <- <-].
      apply bind_Ok in H as (u & s2 & Hpush & H). injection H as <- <-.
      split; [by intros x ?%elem_of_nil | ].
      destruct (bool_decide (0 < length csp)); injection Hpush as _ <-;
        [ | exact Ho].
      intros x Hx. rewrite output_spans_app in Hx. simpl in Hx.
      rewrite app_nil_r in Hx. apply elem_of_app in Hx as [Hx | Hx]; auto.
Qed.

Lemma walk_Ok_attrs node :
  forall st lk ins s sp s',
    walk node st lk ins s = Ok (sp, s') -> attrs_ok node = true.
Proof.
  induction node as [ | t | tag a children IH] using DomNode_tree_ind;
    intros st lk ins s sp s' H; try reflexivity.
  assert (forall st lk ins s sp s',
             walk_children children st lk ins s = Ok (sp, s') ->
             match children with
             | Some cs => forallb attrs_ok cs
             | None => true
             end = true) as Hcs.
  { intros st0 lk0 ins0 s0 sp0 s0' Hrun. rewrite walk_children_eq in Hrun.
    assert (forallb attrs_ok (default [] children) = true)
      as Hall; [ | by destruct children].
    revert s0 sp0 s0' Hrun.
    apply (flatMap_Ok _ (fun c _ _ _ => attrs_ok c = true)
                        (fun cs _ _ _ => forallb attrs_ok cs = true)).
    - reflexivity.
    - intros c cs' _ _ _ _ _ Hc Hcs'. simpl. by rewrite Hc, Hcs'.
    - eapply Forall_impl; [exact IH | ]. intros c Hc s0 sp0 s0'. apply Hc. }
  destruct (tag_cases tag)
    as [-> | [-> | [(Hbr & Himg & Hin) | (Hbr & Himg & Hin)]]].
  - reflexivity.
  - rewrite walk_img in H. by destruct a.
  - rewrite walk_inline in H by assumption.
    apply bind_Ok in H as (nl & s1 & Hnl & H). cbn [attrs_ok].
    rewrite (bool_decide_eq_false_2 _ Hbr), (bool_decide_eq_false_2 _ Himg).
    apply andb_true_iff. split; [ | eapply Hcs; eauto].
    destruct (bool_decide (tag = "a")); [ | reflexivity].
    by destruct a.
  - rewrite walk_other in H by assumption.
    apply bind_Ok in H as (csp & s1 & Hc & H). cbn [attrs_ok].
    rewrite (bool_decide_eq_false_2 _ Hbr), (bool_decide_eq_false_2 _ Himg).
    apply andb_true_iff. split; [ | eapply Hcs; eauto].
    destruct (decide (tag = "a")) as [-> | Ha]; [discriminate | ].
    by rewrite (bool_decide_eq_false_2 _ Ha).
Qed.

(** ** The flattener *)

Lemma flattenGenius_Ok dom out :
  flattenGenius dom = Ok out <->
  exists sp, walk dom [] Null false [] = Ok (sp, out).
Proof.
  unfold flattenGenius.
  destruct (walk dom [] Null false []) as [[sp s'] | e]; split.
  - intros [= ->]. by exists sp.
  - by intros [sp' [= _ ->]].
  - discriminate.
  - by intros [sp' ?].
Qed.

(** [flattenGenius] returns exactly on the trees whose visited [img] and
    [a] nodes have their attributes; otherwise it throws the [TypeError]. *)
Lemma flattenGenius_returns_iff dom :
  attrs_ok dom = true <-> exists out, flattenGenius dom = Ok out.
Proof.
  split.
  - intros Hok. destruct (walk_returns dom Hok [] Null false []) as (sp & out & H).
    exists out. apply flattenGenius_Ok. by exists sp.
  - intros [out H]. apply flattenGenius_Ok in H as [sp H].
    eapply walk_Ok_attrs; eauto.
Qed.

(** The scenario of a blockquote in a paragraph: one paragraph, no
    blockquote record. *)
Example flatten_quote_in_paragraph :
  flattenGenius quote_in_paragraph
  = Ok [Block "paragraph" [mkSpan "quoted" [] Null]].
Proof. reflexivity. Qed.

(** The scenario of an image in a paragraph: the image record comes first. *)
Example flatten_image_in_paragraph :
  flattenGenius image_in_paragraph
  = Ok [Image (Str "x.png") (Str "a") (Num 1) (Num 2);
        Block "paragraph" [mkSpan "after" [] Null]].
Proof. vm_compute. reflexivity. Qed.

(** C1. The round-trip scenario: for
    [{tag:"p", children:["Hello ", {tag:"b", children:["world"]}, "!"]}]
    the flattener returns the single paragraph with the three spans
    "Hello " (no style), "world" (bold) and "!" (no style), all without
    link. *)
Theorem flatten_hello_world :
  flattenGenius c1_input
  = Ok [Block "paragraph"
          [mkSpan "Hello " [] Null;
           mkSpan "world" ["bold"] Null;
           mkSpan "!" [] Null]].
Proof. vm_compute. reflexivity. Qed.

(** C2. Every [Block] record of the output of the flattener, paragraph or
    blockquote, has at least one span: a block whose children return no
    span is not pushed. *)
Theorem blocks_have_spans dom out type spans :
  flattenGenius dom = Ok out ->
  Block type spans ∈ out ->
  spans <> [].
Proof.
  intros H Hin. apply flattenGenius_Ok in H as [sp H].
  pose proof (walk_nonempty _ _ _ _ _ _ _ H (List.Forall_nil _)) as Hall.
  rewrite Forall_forall in Hall. exact (Hall _ Hin).
Qed.

Lemma blocks_have_spans_witness :
  [mkSpan "Hello " [] Null; mkSpan "world" ["bold"] Null; mkSpan "!" [] Null]
  <> [].
Proof.
  apply (blocks_have_spans c1_input
           [Block "paragraph"
              [mkSpan "Hello " [] Null; mkSpan "world" ["bold"] Null;
               mkSpan "!" [] Null]]
           "paragraph").
  - vm_compute. reflexivity.
  - apply list_elem_of_here.
Defined.






Lemma images_in_are_images node :
  Forall (fun i => is_image i = true) (images_in node).
Proof.
  induction node as [ | t | tag a children IH] using DomNode_tree_ind;
    try constructor.
  destruct (decide (tag = "br")) as [-> | Hbr]; [constructor | ].
  destruct (decide (tag = "img")) as [-> | Himg]; [by repeat constructor | ].
  rewrite images_in_other by assumption.
  induction IH as [ | c cs Hc _ IHcs]; simpl; [constructor | ].
  apply Forall_app. by split.
Qed.

(** On a tree whose [br] and [img] nodes have no children the walk meets
    every [img] node. *)
Lemma images_in_img_tags node :
  void_leaves node = true -> images_in node = img_tags node.
Proof.
  induction node as [ | t | tag a children IH] using DomNode_tree_ind;
    intros Hvoid; try reflexivity.
  assert (Forall (fun c => images_in c = img_tags c) (default [] children)
          /\ (includes ["br"; "img"] tag = true ->
              default [] children = [])) as [Hcs Hleaf].
  { destruct children as [cs | ]; [ | by split; [constructor | ]].
    cbn [void_leaves] in Hvoid. apply andb_true_iff in Hvoid as [Hl Hvoid].
    apply forallb_Forall in Hvoid. split.
    - simpl. rewrite Forall_forall in IH, Hvoid |- *. auto.
    - intros Htag. rewrite Htag in Hl. by apply bool_decide_eq_true in Hl. }
  assert (flat_map images_in (default [] children)
          = flat_map img_tags (default [] children)) as Hflat.
  { clear Hleaf IH Hvoid.
    induction Hcs as [ | c cs Hc _ IHcs]; simpl; [reflexivity | ].
    by rewrite Hc, IHcs. }
  assert (img_tags (DElem tag a children)
          = (if bool_decide (tag = "img") then [image_of a] else [])
              ++ flat_map img_tags (default [] children)) as ->
    by (by destruct children).
  destruct (decide (tag = "br")) as [-> | Hbr].
  - rewrite Hleaf by reflexivity. reflexivity.
  - destruct (decide (tag = "img")) as [-> | Himg].
    + rewrite Hleaf by reflexivity. reflexivity.
    + rewrite images_in_other by assumption.
      by rewrite (bool_decide_eq_false_2 _ Himg).
Qed.

(** ** The output is the document-order sequence [emitted] *)

Lemma flatMap_exact {A B} (f : A -> M (list B)) (h : A -> list B)
    (g : A -> list Item) xs :
  Forall (fun x => forall s, f x s = Ok (h x, s ++ g x)) xs ->
  forall s, flatMap f xs s = Ok (flat_map h xs, s ++ flat_map g xs).
Proof.
  induction 1 as [ | x xs Hx _ IH]; intros s; simpl.
  - unfold ret. by rewrite app_nil_r.
  - unfold bind. rewrite Hx, IH. unfold ret. by rewrite app_assoc.
Qed.

Lemma flatMap_emits {A B} (f : A -> M (list B)) (g : A -> list Item) xs :
  Forall (fun x => forall s, exists ys, f x s = Ok (ys, s ++ g x)) xs ->
  forall s, exists ys, flatMap f xs s = Ok (ys, s ++ flat_map g xs).
Proof.
  induction 1 as [ | x xs Hx _ IH]; intros s; simpl.
  - exists []. unfold ret. by rewrite app_nil_r.
  - destruct (Hx s) as [ys1 H1]. destruct (IH (s ++ g x)) as [ys2 H2].
    exists (ys1 ++ ys2). unfold bind. rewrite H1, H2. unfold ret.
    by rewrite app_assoc.
Qed.

Lemma attrs_ok_elem tag a children :
  tag <> "br" -> tag <> "img" ->
  attrs_ok (DElem tag a children) = true ->
  (bool_decide (tag = "a") = true -> is_Some a)
  /\ Forall (fun c => attrs_ok c = true) (default [] children).
Proof.
  intros Hbr Himg Hok. cbn [attrs_ok] in Hok.
  rewrite (bool_decide_eq_false_2 _ Hbr), (bool_decide_eq_false_2 _ Himg)
    in Hok.
  apply andb_true_iff in Hok as [Ha Hcs]. split.
  - intros Htag. rewrite Htag in Ha. by apply bool_decide_eq_true in Ha.
  - apply forallb_Forall. by destruct children.
Qed.

Lemma spans_in_inline tag a children st lk :
  tag <> "br" -> tag <> "img" ->
  includes ["em"; "i"; "b"; "strong"; "a"] tag = true ->
  spans_in (DElem tag a children) st lk
  = flat_map
      (fun c =>
         spans_in c (st ++ tag_styles tag)
           (if bool_decide (tag = "a") then get (default ∅ a) "href"
            else default_null lk))
      (default [] children).
Proof.
  intros Hbr Himg Hin. cbn [spans_in].
  rewrite (bool_decide_eq_false_2 _ Hbr), (bool_decide_eq_false_2 _ Himg), Hin.
  by destruct children.
Qed.

Lemma spans_in_other tag a children st lk :
  tag <> "br" -> tag <> "img" ->
  includes ["em"; "i"; "b"; "strong"; "a"] tag = false ->
  spans_in (DElem tag a children) st lk
  = flat_map (fun c => spans_in c st (default_null lk)) (default [] children).
Proof.
  intros Hbr Himg Hin. cbn [spans_in].
  rewrite (bool_decide_eq_false_2 _ Hbr), (bool_decide_eq_false_2 _ Himg), Hin.
  by destruct children.
Qed.

(** Inside a block, [walk] returns [spans_in] and pushes [images_in]. *)
Lemma walk_inside_exact node :
  attrs_ok node = true ->
  forall st lk s,
    walk node st lk true s = Ok (spans_in node st lk, s ++ images_in node).
Proof.
  induction node as [ | t | tag a children IH] using DomNode_tree_ind;
    intros Hok st lk s.
  - simpl. unfold ret. by rewrite app_nil_r.
  - rewrite walk_text_leaf. simpl.
    destruct (bool_decide (t = "")); unfold ret; by rewrite app_nil_r.
  - destruct (tag_cases tag)
      as [-> | [-> | [(Hbr & Himg & Hin) | (Hbr & Himg & Hin)]]].
    + rewrite walk_br. simpl. unfold ret. by rewrite app_nil_r.
    + rewrite walk_img. simpl in Hok. apply bool_decide_eq_true in Hok.
      by destruct Hok as [o ->].
    + destruct (attrs_ok_elem _ _ _ Hbr Himg Hok) as [Ha Hcs].
      rewrite walk_inline, spans_in_inline, images_in_other by assumption.
      unfold bind.
      assert ((if bool_decide (tag = "a") then lift (get_prop a "href")
               else ret (default_null lk)) s
              = Ok (if bool_decide (tag = "a")
                    then get (default ∅ a) "href" else default_null lk, s))
        as ->.
      { destruct (bool_decide (tag = "a")); [ | reflexivity].
        by destruct (Ha eq_refl) as [o ->]. }
      rewrite walk_children_eq. apply flatMap_exact.
      apply Forall_forall. intros c Hc s'.
      rewrite Forall_forall in IH, Hcs. apply IH; auto.
    + destruct (attrs_ok_elem _ _ _ Hbr Himg Hok) as [_ Hcs].
      rewrite walk_other, spans_in_other, images_in_other by assumption.
      rewrite orb_true_r, andb_false_r. rewrite bind_ret_r.
      rewrite walk_children_eq. apply flatMap_exact.
      apply Forall_forall. intros c Hc s'.
      rewrite Forall_forall in IH, Hcs. apply IH; auto.
Qed.

(** Outside every block, [walk] pushes [emitted]. *)
Lemma walk_outside_exact node :
  attrs_ok node = true ->
  forall st lk s,
    exists sp, walk node st lk false s = Ok (sp, s ++ emitted node st lk).
Proof.
  induction node as [ | t | tag a children IH] using DomNode_tree_ind;
    intros Hok st lk s.
  - exists []. simpl. unfold ret. by rewrite app_nil_r.
  - rewrite walk_text_leaf. simpl.
    destruct (bool_decide (t = "")); eexists; unfold ret;
      by rewrite app_nil_r.
  - destruct (tag_cases tag)
      as [-> | [-> | [(Hbr & Himg & Hin) | (Hbr & Himg & Hin)]]].
    + eexists. rewrite walk_br. simpl. unfold ret. by rewrite app_nil_r.
    + eexists. rewrite walk_img. simpl in Hok.
      apply bool_decide_eq_true in Hok. by destruct Hok as [o ->].
    + pose proof (walk_returns _ Hok st lk false s) as (sp & s' & H).
      exists sp. rewrite H. f_equal. f_equal.
      rewrite walk_inline in H by assumption.
      apply bind_Ok in H as (nl & s1 & Hnl & H).
      apply newLink_state in Hnl as ->.
      apply walk_children_inside in H as ->. cbn [emitted].
      rewrite (bool_decide_eq_false_2 _ Hbr), (bool_decide_eq_false_2 _ Himg),
        Hin.
      by destruct children.
    + destruct (attrs_ok_elem _ _ _ Hbr Himg Hok) as [_ Hcs].
      rewrite walk_other by assumption. cbn [emitted].
      rewrite (bool_decide_eq_false_2 _ Hbr), (bool_decide_eq_false_2 _ Himg),
        Hin.
      destruct (is_block_tag tag) eqn:Hblock; simpl.
      * unfold bind. rewrite walk_children_eq.
        rewrite (flatMap_exact _
                   (fun c => spans_in c st (default_null lk)) images_in).
        2:{ apply Forall_forall. intros c Hc s'.
            rewrite Forall_forall in IH, Hcs.
            apply walk_inside_exact; auto. }
        exists []. destruct children as [cs | ]; simpl.
        -- destruct (bool_decide
                       (0 < length
                              (flat_map
                                 (fun c => spans_in c st (default_null lk))
                                 cs))); unfold push, ret; simpl;
             by rewrite <- ?app_assoc, ?app_nil_r.
        -- reflexivity.
      * unfold bind. rewrite walk_children_eq.
        destruct (flatMap_emits
                    (fun c => walk c st (default_null lk) false)
                    (fun c => emitted c st (default_null lk))
                    (default [] children)) with (s := s) as [ys Hys].
        { apply Forall_forall. intros c Hc s'.
          rewrite Forall_forall in IH, Hcs. apply IH; auto. }
        exists ys. rewrite Hys. unfold ret. by destruct children.
Qed.

(** C4, as stated, fails: an [img] below a [br] is never met by the walk,
    so the tree has an image tag and the output has no image record. *)
Lemma image_below_br_lost :
  ~ (forall out,
        flattenGenius image_under_br = Ok out ->
        List.filter is_image out = img_tags image_under_br).
Proof.
  intros H.
  specialize (H [Block "paragraph" [mkSpan newline [] Null]]).
  assert (List.filter is_image [Block "paragraph" [mkSpan newline [] Null]]
          = img_tags image_under_br) as Habs
    by (apply H; vm_compute; reflexivity).
  vm_compute in Habs. discriminate Habs.
Qed.

(** C4, amended. An [img] node met by the walk, whatever the styles, the
    link and the nesting around it, pushes exactly one image record onto
    the output sequence and returns no span, so no image gets into the
    spans of a block. The output is the document-order sequence
    [emitted]: each [img] node that the walk meets (each one that is not
    below a [br] or an [img], whose children are not visited) stands there
    once, where the tree has it, and the record of a block stands after
    all that its subtree pushed: an image in a paragraph comes before the
    paragraph. When the [br] and [img] nodes of the tree have no children
    these are all the [img] nodes of the tree. *)
Theorem images_at_document_position :
  (forall o children st lk ins res,
      walk (DElem "img" (Some o) children) st lk ins res
      = Ok ([], res ++ [Image (get o "src") (get o "alt")
                              (get o "width") (get o "height")]))
  /\ (forall dom,
         attrs_ok dom = true ->
         flattenGenius dom = Ok (emitted dom [] Null)
         /\ List.filter is_image (emitted dom [] Null) = images_in dom
         /\ (void_leaves dom = true -> images_in dom = img_tags dom))
  /\ (forall tag attributes children st lk res spans res',
         is_block_tag tag = true ->
         walk (DElem tag attributes children) st lk false res
         = Ok (spans, res') ->
         exists own,
           res' = res ++ images_in (DElem tag attributes children) ++ own
           /\ Forall (fun i => is_block i = true) own
           /\ length own <= 1).
Proof.
  split; [ | split].
  - intros o children st lk ins res. by rewrite walk_img.
  - intros dom Hok.
    destruct (walk_outside_exact dom Hok [] Null []) as [sp H].
    simpl in H. split; [apply flattenGenius_Ok; by exists sp | ].
    split; [ | apply images_in_img_tags].
    by rewrite (walk_images _ _ _ _ _ _ _ H).
  - intros tag attributes children st lk res spans res' Hblock H.
    destruct (walk_block _ _ _ _ _ _ _ _ _ Hblock H)
      as (cspans & _ & _ & ->).
    eexists. split; [reflexivity | ].
    destruct (bool_decide (0 < length cspans)); simpl;
      split; repeat constructor.
Qed.

Lemma images_at_document_position_witness :
  flattenGenius image_after_paragraph
  = Ok (emitted image_after_paragraph [] Null)
  /\ List.filter is_image (emitted image_after_paragraph [] Null)
     = images_in image_after_paragraph
  /\ (void_leaves image_after_paragraph = true ->
      images_in image_after_paragraph = img_tags image_after_paragraph).
Proof.
  apply (proj1 (proj2 images_at_document_position) image_after_paragraph).
  vm_compute. reflexivity.
Defined.

(** The sequence for two paragraphs, the second with an image: the first
    paragraph, the image, the second paragraph. *)
Example emitted_image_after_paragraph :
  emitted image_after_paragraph [] Null
  = [Block "paragraph"
       [mkSpan "Hello " [] Null; mkSpan "world" ["bold"] Null;
        mkSpan "!" [] Null];
     Image (Str "x.png") (Str "a") (Num 1) (Num 2);
     Block "paragraph" [mkSpan "after" [] Null]].
Proof. vm_compute. reflexivity. Qed.


(** C6, as stated, fails: under a bold tag that encloses an italic tag
    the span has both styles and "bold" comes first. *)
Lemma italic_before_bold_refuted :
  ~ (forall out x,
        flattenGenius bold_around_italic = Ok out ->
        x ∈ output_spans out ->
        "italic" ∈ styles x -> "bold" ∈ styles x ->
        italic_before_bold (styles x) = true).
Proof.
  intros H.
  specialize (H [Block "paragraph" [mkSpan "x" ["bold"; "italic"] Null]]
                (mkSpan "x" ["bold"; "italic"] Null)).
  assert (italic_before_bold ["bold"; "italic"] = true) as Habs.
  { apply H.
    - vm_compute. reflexivity.
    - apply list_elem_of_here.
    - simpl. apply list_elem_of_further, list_elem_of_here.
    - simpl. apply list_elem_of_here.
  }
  discriminate Habs.
Qed.

(** C6, amended. The styles of a span of the output are the styles of the
    tags that enclose its text, in the order of nesting, outermost tag
    first ("italic" for [em] and [i], "bold" for [b] and [strong], one
    entry for each such tag): "italic" stands before "bold" when the
    italic tag is the outer one, and after it when the bold tag is. The
    span of a [br] has no style. *)
Theorem styles_follow_nesting dom out x :
  flattenGenius dom = Ok out ->
  x ∈ output_spans out ->
  x = mkSpan newline [] Null
  \/ exists path,
      text_under dom path (text x)
      /\ styles x = flat_map tag_styles path.
Proof.
  intros H Hx. apply flattenGenius_Ok in H as [sp H].
  destruct (walk_styles _ _ _ _ _ _ _ H) as [_ Ho].
  destruct (Ho x Hx) as [Hnil | Hst]; [by apply elem_of_nil in Hnil | ].
  exact Hst.
Qed.

Lemma styles_follow_nesting_witness :
  mkSpan "x" ["bold"; "italic"] Null = mkSpan newline [] Null
  \/ exists path,
      text_under bold_around_italic path "x"
      /\ ["bold"; "italic"] = flat_map tag_styles path.
Proof.
  apply (styles_follow_nesting bold_around_italic
           [Block "paragraph" [mkSpan "x" ["bold"; "italic"] Null]]
           (mkSpan "x" ["bold"; "italic"] Null)).
  - vm_compute. reflexivity.
  - apply list_elem_of_here.
Defined.

(** C7. A DOM with no [p], no [blockquote] and no [img] tag flattens to the
    empty sequence: the spans of text that is outside every block are
    returned to the top and dropped there. (The anchors of the tree carry
    their attribute mapping, as every tagged node of the data model
    does.) *)
Theorem orphan_spans_dropped dom :
  no_block_or_image dom = true ->
  attrs_ok dom = true ->
  flattenGenius dom = Ok [].
Proof.
  intros Hno Hok.
  destruct (walk_returns dom Hok [] Null false []) as (sp & out & H).
  apply flattenGenius_Ok. exists sp.
  by rewrite (walk_no_emit _ Hno _ _ _ _ _ _ H) in H.
Qed.

Lemma orphan_spans_dropped_witness : flattenGenius orphan_link = Ok [].
Proof.
  apply (orphan_spans_dropped orphan_link); vm_compute; reflexivity.
Defined.

(** ** The request pipeline *)

Lemma secret_mismatch (h b : option string) :
  h = None \/ b = None \/ h <> b ->
  strict_eq (match h with Some v => Str v | None => Null end) (binding b)
  = false.
Proof.
  intros H. unfold strict_eq. apply bool_decide_eq_false.
  destruct h as [v | ], b as [v' | ]; simpl; try discriminate.
  intros [= ->]. destruct H as [H | [H | H]]; try discriminate. by apply H.
Qed.

(** C8. In the gated worker a request whose [X-Proxy-Secret] header is
    not the configured secret (the header absent, the secret not
    configured, or the two different) is answered 401 with the body
    [{error: 'Unauthorized'}], whatever its path and method, and the
    handler has touched neither the rate limiter, nor the cache, nor the
    upstream API. *)
Theorem unauthorized_is_terminal w request env :
  req_headers request !! "X-Proxy-Secret" = None
  \/ PROXY_SECRET env = None
  \/ req_headers request !! "X-Proxy-Secret" <> PROXY_SECRET env ->
  Gated.fetch w request env
  = (mkResponse 401 json_cors (BodyJson (DataError "Unauthorized")), []).
Proof.
  intros H. unfold Gated.fetch, headers_get.
  by rewrite (secret_mismatch _ _ H).
Qed.

Lemma unauthorized_is_terminal_witness :
  Gated.fetch quiet_world (anonymous_get "/song/123") configured_env
  = (mkResponse 401 json_cors (BodyJson (DataError "Unauthorized")), []).
Proof.
  apply (unauthorized_is_terminal quiet_world (anonymous_get "/song/123")
                                  configured_env).
  left. vm_compute. reflexivity.
Defined.

(** The ungated worker puts the CORS header on every error response. *)
Lemma ungated_errors_carry_cors w request env :
  (400 <= status (fst (Ungated.fetch w request env)))%N ->
  headers (fst (Ungated.fetch w request env)) !! "Access-Control-Allow-Origin"
  = Some "*".
Proof.
  unfold Ungated.fetch.
  destruct (bool_decide (method request = "OPTIONS")); [simpl; lia | ].
  destruct (negb (bool_decide (method request = "GET")));
    [intros _; vm_compute; reflexivity | ].
  destruct (falsy (GENIUS_ACCESS_TOKEN env));
    [intros _; vm_compute; reflexivity | ].
  destruct (match_id "/song/" (pathname request)) as [songId | ].
  { destruct (fetchGeniusSong w songId _) as [[data | e] t]; simpl;
      [lia | intros _; vm_compute; reflexivity]. }
  destruct (match_id "/artist/" (pathname request)) as [artistId | ].
  { destruct (fetchGeniusArtist w artistId _) as [[data | e] t]; simpl;
      [lia | intros _; vm_compute; reflexivity]. }
  destruct (bool_decide (pathname request = "/")
            || bool_decide (pathname request = "")); simpl;
    [lia | intros _; vm_compute; reflexivity].
Qed.

(** In the gated worker, past the cache, an error response lacks the CORS
    header in two places only: the 404 of an unknown route and the 500 of
    the missing token. *)
Lemma gated_errors_cors w request env :
  cache_match w request = None ->
  (400 <= status (fst (Gated.fetch w request env)))%N ->
  headers (fst (Gated.fetch w request env)) !! "Access-Control-Allow-Origin"
  = Some "*"
  \/ headers (fst (Gated.fetch w request env))
       !! "Access-Control-Allow-Origin" = None
     /\ (status (fst (Gated.fetch w request env)) = 404%N
         \/ status (fst (Gated.fetch w request env)) = 500%N
            /\ falsy (GENIUS_ACCESS_TOKEN env) = true).
Proof.
  intros Hmiss. unfold Gated.fetch. rewrite Hmiss.
  destruct (negb (strict_eq _ _));
    [intros _; left; vm_compute; reflexivity | ].
  destruct (RATE_LIMITER env) as [limit | ].
  - destruct (negb (limit _));
      [intros _; left; vm_compute; reflexivity | ].
    destruct (bool_decide (method request = "OPTIONS")); [simpl; lia | ].
    destruct (negb (bool_decide (method request = "GET")));
      [intros _; left; vm_compute; reflexivity | ].
    destruct (falsy (GENIUS_ACCESS_TOKEN env));
      [intros _; right; split; [vm_compute; reflexivity | by right] | ].
    destruct (match_id "/song/" (pathname request)) as [songId | ].
    { destruct (fetchGeniusSong w songId _) as [[data | e] t]; simpl;
        [lia | intros _; left; vm_compute; reflexivity]. }
    destruct (match_id "/artist/" (pathname request)) as [artistId | ].
    { destruct (fetchGeniusArtist w artistId _) as [[data | e] t]; simpl;
        [lia | intros _; left; vm_compute; reflexivity]. }
    destruct (bool_decide (pathname request = "/")
              || bool_decide (pathname request = "")); simpl;
      [lia | intros _; right; split; [vm_compute; reflexivity | by left]].
  - destruct (bool_decide (method request = "OPTIONS")); [simpl; lia | ].
    destruct (negb (bool_decide (method request = "GET")));
      [intros _; left; vm_compute; reflexivity | ].
    destruct (falsy (GENIUS_ACCESS_TOKEN env));
      [intros _; right; split; [vm_compute; reflexivity | by right] | ].
    destruct (match_id "/song/" (pathname request)) as [songId | ].
    { destruct (fetchGeniusSong w songId _) as [[data | e] t]; simpl;
        [lia | intros _; left; vm_compute; reflexivity]. }
    destruct (match_id "/artist/" (pathname request)) as [artistId | ].
    { destruct (fetchGeniusArtist w artistId _) as [[data | e] t]; simpl;
        [lia | intros _; left; vm_compute; reflexivity]. }
    destruct (bool_decide (pathname request = "/")
              || bool_decide (pathname request = "")); simpl;
      [lia | intros _; right; split; [vm_compute; reflexivity | by left]].
Qed.

(** C9. The gated worker answers an unknown route with a 404, and a
    request made while the upstream token is not configured with a 500,
    that carry no [Access-Control-Allow-Origin] header. *)
Theorem gated_errors_without_cors :
  (status (fst (Gated.fetch quiet_world (authorized_get "/unknown")
                            configured_env)) = 404%N
   /\ headers (fst (Gated.fetch quiet_world (authorized_get "/unknown")
                                configured_env))
        !! "Access-Control-Allow-Origin" = None)
  /\ (status (fst (Gated.fetch quiet_world (authorized_get "/song/123")
                               tokenless_env)) = 500%N
      /\ headers (fst (Gated.fetch quiet_world (authorized_get "/song/123")
                                   tokenless_env))
           !! "Access-Control-Allow-Origin" = None).
Proof. repeat split; vm_compute; reflexivity. Qed.

(** * Further properties of the flattener *)

(** ** [walk] only appends to [result] *)

Lemma bind_appends {A B} (m : M A) (k : A -> M B) :
  (forall s, m s = after s (m [])) ->
  (forall a s, k a s = after s (k a [])) ->
  forall s, bind m k s = after s (bind m k []).
Proof.
  intros Hm Hk s. unfold bind. rewrite (Hm s).
  destruct (m []) as [[a out] | e]; simpl; [ | reflexivity].
  rewrite (Hk a (s ++ out)), (Hk a out).
  destruct (k a []) as [[b out'] | e]; simpl; [ | reflexivity].
  by rewrite app_assoc.
Qed.

Lemma flatMap_appends {A B} (f : A -> M (list B)) xs :
  Forall (fun x => forall s, f x s = after s (f x [])) xs ->
  forall s, flatMap f xs s = after s (flatMap f xs []).
Proof.
  induction 1 as [ | x xs Hx _ IH]; intros s.
  - simpl. unfold ret. simpl. by rewrite app_nil_r.
  - simpl. revert s. apply bind_appends; [exact Hx | ].
    intros ys. apply bind_appends; [exact IH | ].
    intros rest s. unfold ret. simpl. by rewrite app_nil_r.
Qed.

Lemma newLink_appends tag (a : option object) lk (s : list Item) :
  (if bool_decide (tag = "a") then lift (get_prop a "href") else ret lk) s
  = after s
      ((if bool_decide (tag = "a") then lift (get_prop a "href") else ret lk)
         []).
Proof.
  destruct (bool_decide (tag = "a")); [destruct a | ]; simpl;
    unfold ret; simpl; by rewrite ?app_nil_r.
Qed.

Lemma walk_appends node :
  forall st lk ins s,
    walk node st lk ins s = after s (walk node st lk ins []).
Proof.
  induction node as [ | t | tag a children IH] using DomNode_tree_ind;
    intros st lk ins s.
  - simpl. unfold ret. simpl. by rewrite app_nil_r.
  - simpl. unfold walk_body, ret.
    destruct (bool_decide (t = "")); simpl; by rewrite app_nil_r.
  - assert (forall st lk ins s,
               walk_children children st lk ins s
               = after s (walk_children children st lk ins [])) as Hcs.
    { intros st0 lk0 ins0. rewrite walk_children_eq.
      apply flatMap_appends. eapply Forall_impl; [exact IH | ].
      intros c Hc s0. apply Hc. }
    destruct (tag_cases tag)
      as [-> | [-> | [(Hbr & Himg & Hin) | (Hbr & Himg & Hin)]]].
    + rewrite !walk_br. unfold ret. simpl. by rewrite app_nil_r.
    + rewrite !walk_img. by destruct a.
    + rewrite !walk_inline by assumption. revert s. apply bind_appends.
      * apply newLink_appends.
      * intros nl. apply Hcs.
    + rewrite !walk_other by assumption. revert s. apply bind_appends.
      * apply Hcs.
      * intros csp s.
        destruct (is_block_tag tag && negb ins);
          [ | unfold ret; simpl; by rewrite app_nil_r].
        unfold bind, push, ret.
        destruct (bool_decide (0 < length csp)); simpl;
          by rewrite ?app_nil_r.
Qed.

(** X1. [walk] never reads, changes or removes what [result] already
    holds: started on a [result] that holds [res], it returns the same
    spans and pushes the same records, after [res], as on the empty
    [result], and it throws in the same cases. *)
Theorem walk_only_appends node st lk ins res :
  (forall spans res',
      walk node st lk ins res = Ok (spans, res') <->
      exists out,
        walk node st lk ins [] = Ok (spans, out) /\ res' = res ++ out)
  /\ (forall e,
         walk node st lk ins res = Throw e <->
         walk node st lk ins [] = Throw e).
Proof.
  rewrite (walk_appends node st lk ins res).
  destruct (walk node st lk ins []) as [[sp out] | e0]; simpl; split.
  - intros spans res'. split.
    + intros [= <- <-]. by exists out.
    + by intros (out' & [= <- <-] & ->).
  - intros e. split; discriminate.
  - intros spans res'. split; [discriminate | by intros (out' & ? & _)].
  - reflexivity.
Qed.

(** ** Exceptions *)

Lemma walk_Throw_prop node :
  forall st lk ins s e,
    walk node st lk ins s = Throw e ->
    e = TypeError "src" \/ e = TypeError "href".
Proof.
  induction node as [ | t | tag a children IH] using DomNode_tree_ind;
    intros st lk ins s e H.
  - discriminate.
  - rewrite walk_text_leaf in H.
    destruct (bool_decide (t = "")); discriminate.
  - rewrite Forall_forall in IH.
    destruct (tag_cases tag)
      as [-> | [-> | [(Hbr & Himg & Hin) | (Hbr & Himg & Hin)]]].
    + discriminate.
    + rewrite walk_img in H. destruct a; [discriminate | ].
      injection H as <-. by left.
    + rewrite walk_inline in H by assumption.
      apply bind_Throw in H as [H | (nl & s1 & _ & H)].
      * destruct (bool_decide (tag = "a")); [ | discriminate].
        apply lift_get_prop_Throw in H. by right.
      * rewrite walk_children_eq in H.
        apply flatMap_Throw in H as (c & s2 & Hc & H). eapply IH; eauto.
    + rewrite walk_other in H by assumption.
      apply bind_Throw in H as [H | (sp & s1 & _ & H)].
      * rewrite walk_children_eq in H.
        apply flatMap_Throw in H as (c & s2 & Hc & H). eapply IH; eauto.
      * destruct (is_block_tag tag && negb ins); [ | discriminate].
        apply bind_Throw in H as [H | (u & s2 & _ & H)]; [ | discriminate].
        destruct (bool_decide (0 < length sp)); discriminate.
Qed.

Lemma flatten_not_ok_throws dom :
  attrs_ok dom = false ->
  exists prop,
    (prop = "src" \/ prop = "href")
    /\ flattenGenius dom = Throw (TypeError prop).
Proof.
  intros Hno. unfold flattenGenius.
  destruct (walk dom [] Null false []) as [[sp out] | e] eqn:Hw.
  - apply walk_Ok_attrs in Hw. congruence.
  - destruct (walk_Throw_prop _ _ _ _ _ _ Hw) as [-> | ->]; eauto.
Qed.

(** X2. [flattenGenius] throws exactly when the walk reaches an [img] or
    an [a] node that has no [attributes]; what it throws is the
    [TypeError] of reading [src], or [href], of [undefined], and no
    partial output is returned. *)
Theorem flatten_throws_iff dom :
  (attrs_ok dom = false <-> exists e, flattenGenius dom = Throw e)
  /\ (forall e,
         flattenGenius dom = Throw e ->
         e = TypeError "src" \/ e = TypeError "href").
Proof.
  split.
  - pose proof (flattenGenius_returns_iff dom) as Hiff.
    destruct (flattenGenius dom) as [out | e] eqn:Hf; split.
    + intros Hno. assert (attrs_ok dom = true) as Hyes
        by (apply Hiff; by exists out).
      congruence.
    + intros [e ?]. discriminate.
    + intros _. by exists e.
    + intros _. destruct (attrs_ok dom); [ | reflexivity].
      destruct (proj1 Hiff eq_refl) as [out ?]. discriminate.
  - intros e. unfold flattenGenius.
    destruct (walk dom [] Null false []) as [[sp out] | e0] eqn:Hw;
      [discriminate | ].
    intros [= <-]. eapply walk_Throw_prop; eauto.
Qed.

(** ** Links *)

Lemma leaf_link_child tag a children c lk s l :
  c ∈ default [] children ->
  leaf_link c
    (if bool_decide (tag = "a") then default_null (get (default ∅ a) "href")
     else lk) s l ->
  leaf_link (DElem tag a children) lk s l.
Proof.
  intros Hc H. destruct children as [cs | ]; [ | by apply elem_of_nil in Hc].
  econstructor; eauto.
Qed.

Lemma newLink_value tag (a : option object) lk (s : list Item) nl s1 :
  (if bool_decide (tag = "a") then lift (get_prop a "href") else ret lk) s
  = Ok (nl, s1) ->
  nl = if bool_decide (tag = "a") then get (default ∅ a) "href" else lk.
Proof.
  destruct (bool_decide (tag = "a")); [ | by intros [= <- _]].
  destruct a; simpl; [by intros [= <- _] | discriminate].
Qed.

Lemma default_null_idem v : default_null (default_null v) = default_null v.
Proof. by destruct v. Qed.

Lemma not_inline_not_anchor tag :
  includes ["em"; "i"; "b"; "strong"; "a"] tag = false ->
  bool_decide (tag = "a") = false.
Proof.
  rewrite includes_false, !not_elem_of_cons. intros (_ & _ & _ & _ & Ha & _).
  by apply bool_decide_eq_false.
Qed.

Lemma walk_links node :
  forall st lk ins s sp s',
    walk node st lk ins s = Ok (sp, s') ->
    (forall x, x ∈ sp ->
               x = br_span
               \/ leaf_link node (default_null lk) (text x) (link x))
    /\ (forall x, x ∈ output_spans s' ->
                  x ∈ output_spans s
                  \/ x = br_span
                  \/ leaf_link node (default_null lk) (text x) (link x)).
Proof.
  induction node as [ | t | tag a children IH] using DomNode_tree_ind;
    intros st lk ins s sp s' H.
  - injection H as <- <-. split; [by intros x ?%elem_of_nil | auto].
  - rewrite walk_text_leaf in H.
    destruct (bool_decide (t = "")); injection H as <- <-;
      (split; [ | auto]); intros x Hx; [by apply elem_of_nil in Hx | ].
    apply list_elem_of_singleton in Hx as ->. right. constructor.
  - set (node := DElem tag a children).
    set (lk' := if bool_decide (tag = "a")
                then default_null (get (default ∅ a) "href")
                else default_null lk).
    assert (forall st nl ins s sp s',
               default_null nl = lk' ->
               flatMap (fun c => walk c st nl ins) (default [] children) s
               = Ok (sp, s') ->
               (forall x, x ∈ sp ->
                          x = br_span
                          \/ leaf_link node (default_null lk)
                                       (text x) (link x))
               /\ (forall x, x ∈ output_spans s' ->
                             x ∈ output_spans s
                             \/ x = br_span
                             \/ leaf_link node (default_null lk)
                                          (text x) (link x)))
      as Hcs.
    { intros st0 nl ins0 s0 sp0 s0' Hnl. revert s0 sp0 s0'.
      apply (flatMap_Ok _
               (fun _ s ys s' =>
                  (forall x, x ∈ ys ->
                             x = br_span
                             \/ leaf_link node (default_null lk)
                                          (text x) (link x))
                  /\ (forall x, x ∈ output_spans s' ->
                                x ∈ output_spans s
                                \/ x = br_span
                                \/ leaf_link node (default_null lk)
                                             (text x) (link x)))
               (fun _ s ys s' =>
                  (forall x, x ∈ ys ->
                             x = br_span
                             \/ leaf_link node (default_null lk)
                                          (text x) (link x))
                  /\ (forall x, x ∈ output_spans s' ->
                                x ∈ output_spans s
                                \/ x = br_span
                                \/ leaf_link node (default_null lk)
                                             (text x) (link x)))).
      - intros s0. split; [by intros x ?%elem_of_nil | auto].
      - intros c cs' s1 ys1 s2 ys2 s3 [Hy1 Ho1] [Hy2 Ho2]. split.
        + intros x [Hx | Hx]%elem_of_app; auto.
        + intros x Hx. destruct (Ho2 x Hx); auto.
      - apply Forall_forall. intros c Hc s0 ys s0' Hrun.
        rewrite Forall_forall in IH.
        destruct (IH c Hc _ _ _ _ _ _ Hrun) as [Hy Ho].
        rewrite Hnl in Hy, Ho. split.
        + intros x Hx. destruct (Hy x Hx) as [? | Hl]; [by left | right].
          eapply leaf_link_child; eauto.
        + intros x Hx.
          destruct (Ho x Hx) as [? | [? | Hl]]; [by left | by right; left | ].
          right; right. eapply leaf_link_child; eauto. }
    destruct (tag_cases tag)
      as [Htag | [Htag | [(Hbr & Himg & Hin) | (Hbr & Himg & Hin)]]].
    + subst tag. injection H as <- <-. split; [ | auto].
      intros x Hx. apply list_elem_of_singleton in Hx as ->. by left.
    + subst tag. rewrite walk_img in H. destruct a; [ | discriminate].
      injection H as <- <-. split; [by intros x ?%elem_of_nil | ].
      intros x Hx. left. rewrite output_spans_app in Hx. simpl in Hx.
      by rewrite app_nil_r in Hx.
    + rewrite walk_inline in H by assumption.
      apply bind_Ok in H as (nl & s1 & Hnl & H).
      pose proof (newLink_value _ _ _ _ _ _ Hnl) as Hv.
      apply newLink_state in Hnl as ->.
      rewrite walk_children_eq in H. eapply Hcs; [ | exact H].
      subst nl lk'. destruct (bool_decide (tag = "a")); [reflexivity | ].
      apply default_null_idem.
    + rewrite walk_other in H by assumption.
      apply bind_Ok in H as (csp & s1 & Hc & H).
      rewrite walk_children_eq in Hc.
      assert (default_null (default_null lk) = lk') as Hlk
        by (subst lk'; rewrite (not_inline_not_anchor _ Hin);
            apply default_null_idem).
      apply (Hcs _ _ _ _ _ _ Hlk) in Hc as [Hy Ho].
      destruct (is_block_tag tag && negb ins);
        [ | by injection H as <- <-].
      apply bind_Ok in H as (u & s2 & Hpush & H). injection H as <- <-.
      split; [by intros x ?%elem_of_nil | ].
      destruct (bool_decide (0 < length csp)); injection Hpush as _ <-;
        [ | exact Ho].
      intros x Hx. rewrite output_spans_app in Hx. simpl in Hx.
      rewrite app_nil_r in Hx. apply elem_of_app in Hx as [Hx | Hx]; auto.
Qed.

(** X3. The link of a span of the output is the [href] of the nearest
    [a] node that encloses its text, and [null] when there is none. An
    [a] node whose attributes hold no [href] does not pass the link of an
    outer anchor on: its text gets the link [null], the default of the
    parameter. No span has the link [undefined]. *)
Theorem links_follow_anchors dom out x :
  flattenGenius dom = Ok out ->
  x ∈ output_spans out ->
  link x <> Undefined
  /\ (x = mkSpan newline [] Null \/ leaf_link dom Null (text x) (link x)).
Proof.
  intros H Hx. apply flattenGenius_Ok in H as [sp H].
  destruct (walk_links _ _ _ _ _ _ _ H) as [_ Ho].
  destruct (Ho x Hx) as [Hnil | Hl]; [by apply elem_of_nil in Hnil | ].
  split; [ | exact Hl].
  destruct Hl as [-> | Hl]; [discriminate | ]. simpl in Hl.
  assert (forall node lk s l,
             leaf_link node lk s l -> lk <> Undefined -> l <> Undefined)
    as Hdef.
  { induction 1 as [ | tag a cs c lk s l Hc Hleaf IHl]; [auto | ].
    intros Hlk. apply IHl. destruct (bool_decide (tag = "a")); [ | exact Hlk].
    by destruct (get (default ∅ a) "href"). }
  eapply Hdef; [exact Hl | discriminate].
Qed.

Lemma links_follow_anchors_witness :
  Null <> Undefined
  /\ (mkSpan "inner" [] Null = mkSpan newline [] Null
      \/ leaf_link nested_anchors Null "inner" Null).
Proof.
  apply (links_follow_anchors nested_anchors
           [Block "paragraph" [mkSpan "inner" [] Null]]
           (mkSpan "inner" [] Null)).
  - vm_compute. reflexivity.
  - apply list_elem_of_here.
Defined.

(** ** What reaches the output *)

Lemma inline_tag_other tag :
  includes ["em"; "i"; "b"; "strong"; "a"] tag = true ->
  tag <> "br" /\ tag <> "img".
Proof.
  rewrite includes_true, !elem_of_cons, elem_of_nil.
  intros [-> | [-> | [-> | [-> | [-> | []]]]]]; split; discriminate.
Qed.

(** X4. When the root of the DOM is an inline tag ([em], [i], [b],
    [strong] or [a]) the output holds the image records of the tree and
    nothing else: the paragraphs and blockquotes below an inline tag that
    is itself outside every block are never emitted. *)
Theorem inline_root_emits_no_block tag attributes children out :
  includes ["em"; "i"; "b"; "strong"; "a"] tag = true ->
  flattenGenius (DElem tag attributes children) = Ok out ->
  out = images_in (DElem tag attributes children)
  /\ Forall (fun i => is_image i = true) out.
Proof.
  intros Hin H. destruct (inline_tag_other tag Hin) as [Hbr Himg].
  apply flattenGenius_Ok in H as [sp H].
  rewrite walk_inline in H by assumption.
  apply bind_Ok in H as (nl & s1 & Hnl & H).
  apply newLink_state in Hnl as ->.
  apply walk_children_inside in H. simpl in H.
  rewrite images_in_other by assumption. subst out. split; [reflexivity | ].
  rewrite <- (images_in_other tag attributes children) by assumption.
  apply images_in_are_images.
Qed.

Lemma inline_root_emits_no_block_witness :
  [] = images_in (elem "b" [c1_input])
  /\ Forall (fun i => is_image i = true) [].
Proof.
  apply (inline_root_emits_no_block "b" None (Some [c1_input]) []);
    vm_compute; reflexivity.
Defined.

Lemma flatMap_outputs (cs : list DomNode) (outs : list (list Item)) :
  Forall2 (fun c o => flattenGenius c = Ok o) cs outs ->
  forall s, exists sp,
    flatMap (fun c => walk c [] Null false) cs s = Ok (sp, s ++ concat outs).
Proof.
  induction 1 as [ | c o cs outs Hc _ IH]; intros s.
  - exists []. simpl. unfold ret. by rewrite app_nil_r.
  - apply flattenGenius_Ok in Hc as [spc Hc].
    destruct (IH (s ++ o)) as [sprest Hrest]. exists (spc ++ sprest).
    simpl. unfold bind. rewrite (walk_appends c), Hc. simpl.
    rewrite Hrest. unfold ret. by rewrite app_assoc.
Qed.

(** X5. A root whose tag the flattener does not know (a wrapper such as
    [root] or [div]) is transparent: the output of the tree is the
    outputs of its children, one after the other. *)
Theorem transparent_root_concat tag attributes cs outs :
  includes ["br"; "img"; "em"; "i"; "b"; "strong"; "a"; "p"; "blockquote"] tag
  = false ->
  Forall2 (fun c o => flattenGenius c = Ok o) cs outs ->
  flattenGenius (DElem tag attributes (Some cs)) = Ok (concat outs).
Proof.
  intros Htag Hcs. apply includes_false in Htag.
  rewrite !not_elem_of_cons in Htag.
  destruct Htag as (Hbr & Himg & Hem & Hi & Hb & Hst & Ha & Hp & Hq & _).
  assert (includes ["em"; "i"; "b"; "strong"; "a"] tag = false) as Hin
    by (apply includes_false; rewrite !not_elem_of_cons;
        repeat split; auto using not_elem_of_nil).
  assert (is_block_tag tag = false) as Hblock
    by (apply includes_false; rewrite !not_elem_of_cons;
        repeat split; auto using not_elem_of_nil).
  apply flattenGenius_Ok.
  destruct (flatMap_outputs cs outs Hcs []) as [sp Hrun]. exists sp.
  rewrite walk_other by assumption. rewrite Hblock. simpl.
  unfold bind, walk_children. simpl. by rewrite Hrun.
Qed.

Lemma transparent_root_concat_witness :
  flattenGenius (DElem "root" None (Some [c1_input; image_in_paragraph]))
  = Ok (concat
          [[Block "paragraph"
              [mkSpan "Hello " [] Null; mkSpan "world" ["bold"] Null;
               mkSpan "!" [] Null]];
           [Image (Str "x.png") (Str "a") (Num 1) (Num 2);
            Block "paragraph" [mkSpan "after" [] Null]]]).
Proof.
  apply (transparent_root_concat "root" None [c1_input; image_in_paragraph]).
  - vm_compute. reflexivity.
  - repeat constructor.
Defined.

Lemma flatMap_blank cs st lk ins s :
  forallb is_blank cs = true ->
  flatMap (fun c => walk c st lk ins) cs s = Ok ([], s).
Proof.
  induction cs as [ | c cs IH]; simpl; [reflexivity | ].
  intros [Hc Hcs]%andb_true_iff. unfold bind.
  assert (walk c st lk ins s = Ok ([], s)) as ->.
  { destruct c as [ | t | ]; simpl in Hc; try discriminate; [reflexivity | ].
    simpl. unfold walk_body. by rewrite Hc. }
  by rewrite (IH Hcs).
Qed.

(** X6. A paragraph or blockquote that has no children, or whose children
    are all [null] or empty strings, leaves no trace in the output: the
    empty string is skipped like [null], and the block without spans is
    not emitted. *)
Theorem blank_block_emits_nothing tag attributes children :
  is_block_tag tag = true ->
  forallb is_blank (default [] children) = true ->
  flattenGenius (DElem tag attributes children) = Ok [].
Proof.
  intros Hblock Hblank.
  destruct (block_tag_other tag Hblock) as (Hbr & Himg & Hin).
  apply flattenGenius_Ok. exists [].
  rewrite walk_other by assumption. rewrite Hblock. simpl.
  unfold bind. rewrite walk_children_eq, (flatMap_blank _ _ _ _ _ Hblank).
  reflexivity.
Qed.

Lemma blank_block_emits_nothing_witness :
  flattenGenius (DElem "p" None (Some [DText ""; DNull; DText ""])) = Ok [].
Proof.
  apply (blank_block_emits_nothing "p" None
           (Some [DText ""; DNull; DText ""])); reflexivity.
Defined.

(** * Further properties of the request pipeline *)

(** ** Routes *)

Lemma strip_prefix_spec p s r :
  strip_prefix p s = Some r <-> s = (p ++ r)%string.
Proof.
  revert s. induction p as [ | a p IH]; intros s; simpl.
  - split; [by intros [= ->] | by intros ->].
  - destruct s as [ | b s]; [split; discriminate | ].
    case_bool_decide as Hab.
    + subst b. rewrite IH. split; [by intros -> | by intros [= ->]].
    + split; [discriminate | ]. intros [= -> _]. by destruct Hab.
Qed.

Lemma is_digit_spec c :
  is_digit c
  = bool_decide
      (c ∈ ["0"; "1"; "2"; "3"; "4"; "5"; "6"; "7"; "8"; "9"]%char).
Proof.
  destruct c as [[] [] [] [] [] [] [] []]; vm_compute; reflexivity.
Qed.

(** X7. The route patterns [/^\/song\/(\d+)$/] and [/^\/artist\/(\d+)$/]:
    a path matches exactly when it is the prefix followed by one or more
    characters and nothing else, each of them one of the ten ASCII digits;
    the capture is those digits, and no path matches both routes. *)
Theorem route_matching :
  (forall prefix path id,
      match_id prefix path = Some id <->
      path = (prefix ++ id)%string /\ id <> "" /\ all_digits id = true)
  /\ (forall c s,
         all_digits (String c s) = true <->
         c ∈ ["0"; "1"; "2"; "3"; "4"; "5"; "6"; "7"; "8"; "9"]%char
         /\ all_digits s = true)
  /\ (forall path id,
         match_id "/song/" path = Some id ->
         match_id "/artist/" path = None).
Proof.
  assert (forall prefix path id,
             match_id prefix path = Some id <->
             path = (prefix ++ id)%string /\ id <> "" /\ all_digits id = true)
    as Hspec.
  { intros prefix path id. unfold match_id. split.
    - destruct (strip_prefix prefix path) as [r | ] eqn:Hr; [ | discriminate].
      apply strip_prefix_spec in Hr.
      destruct (negb (bool_decide (r = "")) && all_digits r) eqn:Hc;
        [ | discriminate].
      intros [= <-]. apply andb_true_iff in Hc as [Hne Hd].
      apply negb_true_iff, bool_decide_eq_false in Hne. by repeat split.
    - intros (Hpath & Hne & Hd). apply strip_prefix_spec in Hpath.
      rewrite Hpath, Hd. by rewrite (bool_decide_eq_false_2 _ Hne). }
  split; [exact Hspec | split].
  - intros c s. simpl. rewrite andb_true_iff, is_digit_spec.
    by rewrite bool_decide_eq_true.
  - intros path id H. apply Hspec in H as (-> & _ & _). reflexivity.
Qed.

(** ** The gates of the gated worker *)

Lemma authorized_iff request env :
  strict_eq (headers_get (req_headers request) "X-Proxy-Secret")
            (binding (PROXY_SECRET env)) = true
  <-> authorized request env.
Proof.
  unfold strict_eq, headers_get, binding, authorized.
  rewrite bool_decide_eq_true.
  destruct (req_headers request !! "X-Proxy-Secret") as [v | ],
           (PROXY_SECRET env) as [v' | ]; split;
    try discriminate; try (by intros (x & [= ?] & [= ?])).
  - intros [= ->]. by exists v'.
  - intros (x & [= ->] & [= ->]). reflexivity.
Qed.

Lemma token_falsy env token :
  token_is env token ->
  falsy (GENIUS_ACCESS_TOKEN env) = false
  /\ default "" (GENIUS_ACCESS_TOKEN env) = token.
Proof.
  intros [-> Hne]. simpl. by rewrite (bool_decide_eq_false_2 _ Hne).
Qed.

(** The handler once the secret and the rate limiter let the request
    through and the cache has the answer or not. *)
Lemma gated_enter w request env :
  authorized request env ->
  limiter_passes request env ->
  Gated.fetch w request env
  = (let t3 := limiter_events request env ++ [EvCacheMatch request] in
     match cache_match w request with
     | Some response =>
         (mkResponse (status response)
                     (<[ "X-Proxy-Cache" := "HIT" ]> (headers response))
                     (body response), t3)
     | None =>
         if bool_decide (method request = "OPTIONS") then
           (mkResponse 200
              (<[ "Access-Control-Allow-Methods" := "GET, OPTIONS" ]>
               (<[ "Access-Control-Allow-Headers" :=
                     "Content-Type, X-Proxy-Secret" ]>
                (<[ "Access-Control-Max-Age" := "86400" ]> cors)))
              BodyNull, t3)
         else if negb (bool_decide (method request = "GET")) then
           (text_response 405 cors (BodyText "Method not allowed"), t3)
         else if falsy (GENIUS_ACCESS_TOKEN env) then
           (text_response 500 ∅
              (BodyText "GENIUS_ACCESS_TOKEN not configured"), t3)
         else
           let geniusToken := default "" (GENIUS_ACCESS_TOKEN env) in
           match match_id "/song/" (pathname request),
                 match_id "/artist/" (pathname request) with
           | Some id, _ =>
               match fetchGeniusSong w id geniusToken with
               | (Ok data, t5) =>
                   (fresh (DataSong data),
                    (t3 ++ t5) ++ [EvCachePut request (fresh (DataSong data))])
               | (Throw e, t5) =>
                   (mkResponse 500 json_cors
                      (BodyJson (DataError (message e))), t3 ++ t5)
               end
           | None, Some id =>
               match fetchGeniusArtist w id geniusToken with
               | (Ok data, t5) =>
                   (fresh (DataArtist data),
                    (t3 ++ t5)
                      ++ [EvCachePut request (fresh (DataArtist data))])
               | (Throw e, t5) =>
                   (mkResponse 500 json_cors
                      (BodyJson (DataError (message e))), t3 ++ t5)
               end
           | None, None =>
               if bool_decide (pathname request = "/")
                  || bool_decide (pathname request = "")
               then
                 (fresh (DataInfo "/song/{id}" "/artist/{id}"),
                  t3 ++ [EvCachePut request
                           (fresh (DataInfo "/song/{id}" "/artist/{id}"))])
               else
                 (text_response 404 ∅ (BodyJson (DataError "Not found")), t3)
           end
     end).
Proof.
  intros Hauth Hpass. apply authorized_iff in Hauth.
  unfold Gated.fetch. rewrite Hauth. cbn [negb].
  unfold limiter_passes, limiter_events in *. fold (client_key request).
  destruct (RATE_LIMITER env) as [limit | ].
  - rewrite Hpass. cbn [negb].
    destruct (cache_match w request); [reflexivity | ].
    repeat (destruct (bool_decide _); try reflexivity).
  - reflexivity.
Qed.

(** X8. A request that carries the secret and that the rate limiter
    refuses is answered 429 with the body [{error: 'Too Many Requests'}];
    the limiter was asked once, with the [CF-Connecting-IP] header as key
    (["anonymous"] when the header is absent or empty), and neither the
    cache nor the upstream API was touched. *)
Theorem rate_limited_is_terminal w request env limit :
  authorized request env ->
  RATE_LIMITER env = Some limit ->
  limit (client_key request) = false ->
  Gated.fetch w request env
  = (mkResponse 429 json_cors (BodyJson (DataError "Too Many Requests")),
     [EvRateLimit (client_key request)]).
Proof.
  intros Hauth Hlim Hno. apply authorized_iff in Hauth.
  unfold Gated.fetch. rewrite Hauth, Hlim. cbn [negb].
  fold (client_key request). by rewrite Hno.
Qed.

Lemma rate_limited_is_terminal_witness :
  Gated.fetch quiet_world (authorized_get "/song/123") throttled_env
  = (mkResponse 429 json_cors (BodyJson (DataError "Too Many Requests")),
     [EvRateLimit (client_key (authorized_get "/song/123"))]).
Proof.
  apply (rate_limited_is_terminal quiet_world (authorized_get "/song/123")
                                  throttled_env (fun _ => false)).
  - exists "s3cret". split; vm_compute; reflexivity.
  - reflexivity.
  - reflexivity.
Defined.

(** X9. A cache hit ends the request: past the secret and the rate
    limiter, a request the cache has a response for gets that response,
    status and body unchanged, with the header [X-Proxy-Cache: HIT] set,
    whatever its method and path and whether or not the upstream token is
    configured; the upstream API is not called and nothing is written to
    the cache. *)
Theorem cache_hit_short_circuits w request env response :
  authorized request env ->
  limiter_passes request env ->
  cache_match w request = Some response ->
  Gated.fetch w request env
  = (mkResponse (status response)
                (<[ "X-Proxy-Cache" := "HIT" ]> (headers response))
                (body response),
     limiter_events request env ++ [EvCacheMatch request]).
Proof.
  intros Hauth Hpass Hhit. rewrite gated_enter by assumption.
  by rewrite Hhit.
Qed.

Lemma cache_hit_short_circuits_witness :
  Gated.fetch (cached_world (fresh (DataInfo "a" "b")))
              (authorized_get "/unknown") tokenless_env
  = (mkResponse 200
       (<[ "X-Proxy-Cache" := "HIT" ]> (headers (fresh (DataInfo "a" "b"))))
       (BodyJson (DataInfo "a" "b")),
     limiter_events (authorized_get "/unknown") tokenless_env
       ++ [EvCacheMatch (authorized_get "/unknown")]).
Proof.
  apply (cache_hit_short_circuits (cached_world (fresh (DataInfo "a" "b")))
           (authorized_get "/unknown") tokenless_env
           (fresh (DataInfo "a" "b"))).
  - exists "s3cret". split; vm_compute; reflexivity.
  - exact I.
  - reflexivity.
Defined.

(** X10. An unknown route: while the upstream token is configured, a
    [GET] that passes the gates, misses the cache and matches neither
    [/song/<digits>], [/artist/<digits>] nor the root is answered 404
    with the body [{error: 'Not found'}]; the upstream API is not called
    and the 404 is not written to the cache. (Without the token the
    answer is the 500 of the missing configuration, whatever the path.) *)
Theorem gated_unknown_route w request env token :
  authorized request env ->
  limiter_passes request env ->
  cache_match w request = None ->
  method request = "GET" ->
  token_is env token ->
  match_id "/song/" (pathname request) = None ->
  match_id "/artist/" (pathname request) = None ->
  pathname request <> "/" ->
  pathname request <> "" ->
  Gated.fetch w request env
  = (text_response 404 ∅ (BodyJson (DataError "Not found")),
     limiter_events request env ++ [EvCacheMatch request]).
Proof.
  intros Hauth Hpass Hmiss Hget Htok Hsong Hartist Hroot Hempty.
  rewrite gated_enter by assumption.
  destruct (token_falsy _ _ Htok) as [Hf _].
  rewrite Hmiss, Hget, Hf, Hsong, Hartist.
  rewrite (bool_decide_eq_false_2 _ Hroot), (bool_decide_eq_false_2 _ Hempty).
  reflexivity.
Qed.

Lemma gated_unknown_route_witness :
  Gated.fetch quiet_world (authorized_get "/song/12a") configured_env
  = (text_response 404 ∅ (BodyJson (DataError "Not found")),
     limiter_events (authorized_get "/song/12a") configured_env
       ++ [EvCacheMatch (authorized_get "/song/12a")]).
Proof.
  apply (gated_unknown_route quiet_world (authorized_get "/song/12a")
                             configured_env "token");
    try (vm_compute; reflexivity); try discriminate.
  - exists "s3cret". split; vm_compute; reflexivity.
  - split; [reflexivity | discriminate].
Defined.

(** X11. An upstream failure on the song route: when the upstream API
    answers with a status that is not 2xx, the handler answers 500 with
    the body [{error: 'Genius API error: <status> <statusText>'}]; the
    upstream API was called once, with the bearer token, and the 500 is
    not written to the cache. *)
Theorem gated_upstream_failure w request env token id :
  authorized request env ->
  limiter_passes request env ->
  cache_match w request = None ->
  method request = "GET" ->
  token_is env token ->
  match_id "/song/" (pathname request) = Some id ->
  ok (http_fetch w (songs_url id) (bearer token)) = false ->
  Gated.fetch w request env
  = (mkResponse 500 json_cors
       (BodyJson
          (DataError
             ("Genius API error: "
              ++ pretty (up_status (http_fetch w (songs_url id)
                                               (bearer token)))
              ++ " "
              ++ statusText (http_fetch w (songs_url id) (bearer token)))
             %string)),
     limiter_events request env
       ++ [EvCacheMatch request; EvUpstream (songs_url id) (bearer token)]).
Proof.
  intros Hauth Hpass Hmiss Hget Htok Hsong Hdown.
  rewrite gated_enter by assumption.
  destruct (token_falsy _ _ Htok) as [Hf Hd].
  rewrite Hmiss, Hget, Hf, Hsong, Hd. cbn [bool_decide negb].
  unfold fetchGeniusSong. fold (songs_url id). fold (bearer token).
  rewrite Hdown. cbn [negb]. by rewrite <- app_assoc.
Qed.

Lemma gated_upstream_failure_witness :
  Gated.fetch quiet_world (authorized_get "/song/123") configured_env
  = (mkResponse 500 json_cors
       (BodyJson
          (DataError
             ("Genius API error: "
              ++ pretty (up_status (http_fetch quiet_world (songs_url "123")
                                               (bearer "token")))
              ++ " "
              ++ statusText (http_fetch quiet_world (songs_url "123")
                                        (bearer "token")))
             %string)),
     limiter_events (authorized_get "/song/123") configured_env
       ++ [EvCacheMatch (authorized_get "/song/123");
           EvUpstream (songs_url "123") (bearer "token")]).
Proof.
  apply (gated_upstream_failure quiet_world (authorized_get "/song/123")
                                configured_env "token" "123");
    try (vm_compute; reflexivity).
  - exists "s3cret". split; vm_compute; reflexivity.
  - split; [reflexivity | discriminate].
Defined.

(** X12. An exception of the flattener on the artist route: when the
    description of the artist holds an [img] or [a] node without
    attributes, the handler catches the [TypeError] and answers 500 with
    its message as the [error] of the body; the answer is not written to
    the cache. *)
Theorem gated_flatten_error w request env token id artist :
  authorized request env ->
  limiter_passes request env ->
  cache_match w request = None ->
  method request = "GET" ->
  token_is env token ->
  match_id "/song/" (pathname request) = None ->
  match_id "/artist/" (pathname request) = Some id ->
  ok (http_fetch w (artists_url id) (bearer token)) = true ->
  json (http_fetch w (artists_url id) (bearer token)) = ParsedArtist artist ->
  attrs_ok (up_artist_description_dom artist) = false ->
  exists prop,
    (prop = "src" \/ prop = "href")
    /\ Gated.fetch w request env
       = (mkResponse 500 json_cors
            (BodyJson (DataError (message (TypeError prop)))),
          limiter_events request env
            ++ [EvCacheMatch request;
                EvUpstream (artists_url id) (bearer token)]).
Proof.
  intros Hauth Hpass Hmiss Hget Htok Hsong Hartist Hok Hjson Hattrs.
  destruct (flatten_not_ok_throws _ Hattrs) as (prop & Hprop & He).
  exists prop. split; [exact Hprop | ].
  rewrite gated_enter by assumption;
    destruct (token_falsy _ _ Htok) as [Hf Hd];
    rewrite Hmiss, Hget, Hf, Hsong, Hartist, Hd; cbn [bool_decide negb];
    unfold fetchGeniusArtist; fold (artists_url id); fold (bearer token);
    rewrite Hok, Hjson, He; cbn [negb]; by rewrite <- app_assoc.
Qed.

Lemma gated_flatten_error_witness :
  exists prop,
    (prop = "src" \/ prop = "href")
    /\ Gated.fetch broken_artist_world (authorized_get "/artist/7")
                   configured_env
       = (mkResponse 500 json_cors
            (BodyJson (DataError (message (TypeError prop)))),
          limiter_events (authorized_get "/artist/7") configured_env
            ++ [EvCacheMatch (authorized_get "/artist/7");
                EvUpstream (artists_url "7") (bearer "token")]).
Proof.
  apply (gated_flatten_error broken_artist_world (authorized_get "/artist/7")
           configured_env "token" "7"
           {| up_artist_name := Str "A";
              up_artist_description_dom := broken_anchor;
              up_artist_url := Null |});
    try (vm_compute; reflexivity).
  - exists "s3cret". split; vm_compute; reflexivity.
  - split; [reflexivity | discriminate].
Defined.

(** X13. A song without album, fetched and flattened without exception:
    the handler answers 200 with the projected record, [description]
    being the flattened DOM and [album] being [null], under the headers
    of a fresh response ([X-Proxy-Cache: MISS], the cache control, CORS);
    in order, it asked the rate limiter when there is one, looked the
    request up in the cache, called the upstream API once and scheduled
    the write of that very response under the request. *)
Theorem gated_song_success w request env token id song description :
  authorized request env ->
  limiter_passes request env ->
  cache_match w request = None ->
  method request = "GET" ->
  token_is env token ->
  match_id "/song/" (pathname request) = Some id ->
  ok (http_fetch w (songs_url id) (bearer token)) = true ->
  json (http_fetch w (songs_url id) (bearer token)) = ParsedSong song ->
  flattenGenius (up_song_description_dom song) = Ok description ->
  up_album song = None ->
  let data :=
    DataSong
      {| artist_names := up_artist_names song;
         song_description := description;
         title := up_title song;
         language := up_language song;
         release_date := up_release_date song;
         title_with_featured := up_title_with_featured song;
         song_url := up_song_url song;
         primary_color := up_song_art_primary_color song;
         secondary_color := up_song_art_secondary_color song;
         album := None |} in
  Gated.fetch w request env
  = (fresh data,
     limiter_events request env
       ++ [EvCacheMatch request;
           EvUpstream (songs_url id) (bearer token);
           EvCachePut request (fresh data)]).
Proof.
  intros Hauth Hpass Hmiss Hget Htok Hsong Hok Hjson Hflat Halbum data.
  rewrite gated_enter by assumption.
  destruct (token_falsy _ _ Htok) as [Hf Hd].
  rewrite Hmiss, Hget, Hf, Hsong, Hd. cbn [bool_decide negb].
  unfold fetchGeniusSong. fold (songs_url id). fold (bearer token).
  rewrite Hok, Hjson, Hflat, Halbum. cbn [negb]. fold data.
  by rewrite <- !app_assoc.
Qed.

Lemma gated_song_success_witness :
  let data :=
    DataSong
      {| artist_names := up_artist_names single_song;
         song_description :=
           [Block "paragraph"
              [mkSpan "Hello " [] Null; mkSpan "world" ["bold"] Null;
               mkSpan "!" [] Null]];
         title := up_title single_song;
         language := up_language single_song;
         release_date := up_release_date single_song;
         title_with_featured := up_title_with_featured single_song;
         song_url := up_song_url single_song;
         primary_color := up_song_art_primary_color single_song;
         secondary_color := up_song_art_secondary_color single_song;
         album := None |} in
  Gated.fetch single_world (authorized_get "/song/123") configured_env
  = (fresh data,
     limiter_events (authorized_get "/song/123") configured_env
       ++ [EvCacheMatch (authorized_get "/song/123");
           EvUpstream (songs_url "123") (bearer "token");
           EvCachePut (authorized_get "/song/123") (fresh data)]).
Proof.
  apply (gated_song_success single_world (authorized_get "/song/123")
           configured_env "token" "123" single_song);
    try (vm_compute; reflexivity).
  - exists "s3cret". split; vm_compute; reflexivity.
  - split; [reflexivity | discriminate].
Defined.

(** ** What the gated worker does to its collaborators *)

Lemma gated_gates w request env :
  snd (Gated.fetch w request env) = []
  \/ snd (Gated.fetch w request env) = [EvRateLimit (client_key request)]
  \/ authorized request env /\ limiter_passes request env.
Proof.
  destruct (strict_eq (headers_get (req_headers request) "X-Proxy-Secret")
                      (binding (PROXY_SECRET env))) eqn:Hauth.
  - pose proof (proj1 (authorized_iff _ _) Hauth) as Ha.
    unfold limiter_passes.
    destruct (RATE_LIMITER env) as [limit | ] eqn:Hlim; [ | auto].
    destruct (limit (client_key request)) eqn:Hpass; [auto | ].
    right; left. unfold Gated.fetch. rewrite Hauth, Hlim. cbn [negb].
    fold (client_key request). by rewrite Hpass.
  - left. unfold Gated.fetch. by rewrite Hauth.
Qed.

Lemma limiter_events_only request env e :
  e ∈ limiter_events request env -> e = EvRateLimit (client_key request).
Proof.
  unfold limiter_events. destruct (RATE_LIMITER env).
  - by intros ->%list_elem_of_singleton.
  - by intros ?%elem_of_nil.
Qed.

Lemma fetchGeniusSong_events w id token :
  snd (fetchGeniusSong w id token)
  = [EvUpstream (songs_url id) (bearer token)].
Proof. reflexivity. Qed.

Lemma fetchGeniusArtist_events w id token :
  snd (fetchGeniusArtist w id token)
  = [EvUpstream (artists_url id) (bearer token)].
Proof. reflexivity. Qed.

Ltac split_events H :=
  repeat first
    [ apply elem_of_app in H as [H | H]
    | apply elem_of_cons in H as [H | H]
    | apply elem_of_nil in H; destruct H
    | apply limiter_events_only in H
    | discriminate H ].

(** X14. The only responses the gated worker writes to the cache are its
    own fresh 200 responses: every write is keyed by the inbound request,
    stores exactly the response that is returned to the client, which has
    status 200 and the header [X-Proxy-Cache: MISS], and happens only
    after a cache miss. No error response and no cache hit is ever
    written back. *)
Theorem cache_put_only_fresh w request env rq rs :
  EvCachePut rq rs ∈ snd (Gated.fetch w request env) ->
  rq = request
  /\ rs = fst (Gated.fetch w request env)
  /\ status rs = 200%N
  /\ headers rs !! "X-Proxy-Cache" = Some "MISS"
  /\ cache_match w request = None.
Proof.
  intros Hin.
  destruct (gated_gates w request env) as [Ht | [Ht | [Hauth Hpass]]];
    [rewrite Ht in Hin; split_events Hin .. | ].
  rewrite gated_enter in Hin |- * by assumption. cbn zeta in *.
  destruct (cache_match w request) as [hit | ];
    [simpl in Hin; split_events Hin | ].
  destruct (bool_decide (method request = "OPTIONS"));
    [simpl in Hin; split_events Hin | ].
  destruct (negb (bool_decide (method request = "GET")));
    [simpl in Hin; split_events Hin | ].
  destruct (falsy (GENIUS_ACCESS_TOKEN env));
    [simpl in Hin; split_events Hin | ].
  destruct (match_id "/song/" (pathname request)) as [id | ].
  { pose proof (fetchGeniusSong_events w id
                  (default "" (GENIUS_ACCESS_TOKEN env))) as Hev.
    destruct (fetchGeniusSong w id _) as [[data | e] t5]; simpl in Hev;
      subst t5; simpl in Hin; split_events Hin.
    injection Hin as -> ->. by repeat split. }
  destruct (match_id "/artist/" (pathname request)) as [id | ].
  { pose proof (fetchGeniusArtist_events w id
                  (default "" (GENIUS_ACCESS_TOKEN env))) as Hev.
    destruct (fetchGeniusArtist w id _) as [[data | e] t5]; simpl in Hev;
      subst t5; simpl in Hin; split_events Hin.
    injection Hin as -> ->. by repeat split. }
  destruct (bool_decide (pathname request = "/")
            || bool_decide (pathname request = ""));
    simpl in Hin; split_events Hin.
  injection Hin as -> ->. by repeat split.
Qed.

Lemma cache_put_only_fresh_witness :
  authorized_get "/" = authorized_get "/"
  /\ fresh (DataInfo "/song/{id}" "/artist/{id}")
     = fst (Gated.fetch quiet_world (authorized_get "/") configured_env)
  /\ status (fresh (DataInfo "/song/{id}" "/artist/{id}")) = 200%N
  /\ headers (fresh (DataInfo "/song/{id}" "/artist/{id}"))
       !! "X-Proxy-Cache" = Some "MISS"
  /\ cache_match quiet_world (authorized_get "/") = None.
Proof.
  apply (cache_put_only_fresh quiet_world (authorized_get "/") configured_env
           (authorized_get "/")
           (fresh (DataInfo "/song/{id}" "/artist/{id}"))).
  vm_compute. apply list_elem_of_further, list_elem_of_here.
Defined.

Lemma falsy_false env :
  falsy (GENIUS_ACCESS_TOKEN env) = false ->
  token_is env (default "" (GENIUS_ACCESS_TOKEN env)).
Proof.
  unfold falsy, token_is. destruct (GENIUS_ACCESS_TOKEN env) as [v | ];
    [ | discriminate].
  intros Hne%bool_decide_eq_false. by split.
Qed.

(** X15. The gated worker calls the upstream API only for a [GET] that
    carries the secret, passed the rate limiter, missed the cache and
    matches a route, while the token is configured: the call goes to
    [/songs/<id>] for [/song/<id>] and to [/artists/<id>] for
    [/artist/<id>], [id] being the digits of the path, with the
    authorization [Bearer <token>]. *)
Theorem upstream_only_for_routes w request env url authorization :
  EvUpstream url authorization ∈ snd (Gated.fetch w request env) ->
  authorized request env
  /\ limiter_passes request env
  /\ cache_match w request = None
  /\ method request = "GET"
  /\ exists token id,
      token_is env token
      /\ authorization = bearer token
      /\ (match_id "/song/" (pathname request) = Some id
          /\ url = songs_url id
          \/ match_id "/song/" (pathname request) = None
             /\ match_id "/artist/" (pathname request) = Some id
             /\ url = artists_url id).
Proof.
  intros Hin.
  destruct (gated_gates w request env) as [Ht | [Ht | [Hauth Hpass]]];
    [rewrite Ht in Hin; split_events Hin .. | ].
  rewrite gated_enter in Hin by assumption. cbn zeta in *.
  destruct (cache_match w request) as [hit | ];
    [simpl in Hin; split_events Hin | ].
  destruct (bool_decide (method request = "OPTIONS"));
    [simpl in Hin; split_events Hin | ].
  destruct (bool_decide (method request = "GET")) eqn:Hget;
    [ | simpl in Hin; split_events Hin].
  apply bool_decide_eq_true in Hget. cbn [negb] in Hin.
  destruct (falsy (GENIUS_ACCESS_TOKEN env)) eqn:Hf;
    [simpl in Hin; split_events Hin | ].
  apply falsy_false in Hf.
  repeat (split; [assumption || reflexivity | ]).
  exists (default "" (GENIUS_ACCESS_TOKEN env)).
  destruct (match_id "/song/" (pathname request)) as [id | ].
  { pose proof (fetchGeniusSong_events w id
                  (default "" (GENIUS_ACCESS_TOKEN env))) as Hev.
    destruct (fetchGeniusSong w id _) as [[data | e] t5]; simpl in Hev;
      subst t5; simpl in Hin; split_events Hin;
      injection Hin as -> ->; exists id; auto. }
  destruct (match_id "/artist/" (pathname request)) as [id | ].
  { pose proof (fetchGeniusArtist_events w id
                  (default "" (GENIUS_ACCESS_TOKEN env))) as Hev.
    destruct (fetchGeniusArtist w id _) as [[data | e] t5]; simpl in Hev;
      subst t5; simpl in Hin; split_events Hin;
      injection Hin as -> ->; exists id; auto 10. }
  destruct (bool_decide (pathname request = "/")
            || bool_decide (pathname request = ""));
    simpl in Hin; split_events Hin.
Qed.

Lemma upstream_only_for_routes_witness :
  authorized (authorized_get "/song/123") configured_env
  /\ limiter_passes (authorized_get "/song/123") configured_env
  /\ cache_match quiet_world (authorized_get "/song/123") = None
  /\ method (authorized_get "/song/123") = "GET"
  /\ exists token id,
      token_is configured_env token
      /\ bearer "token" = bearer token
      /\ (match_id "/song/" (pathname (authorized_get "/song/123")) = Some id
          /\ songs_url "123" = songs_url id
          \/ match_id "/song/" (pathname (authorized_get "/song/123")) = None
             /\ match_id "/artist/" (pathname (authorized_get "/song/123"))
                = Some id
             /\ songs_url "123" = artists_url id).
Proof.
  apply (upstream_only_for_routes quiet_world (authorized_get "/song/123")
           configured_env (songs_url "123") (bearer "token")).
  vm_compute. apply list_elem_of_further, list_elem_of_here.
Defined.

(** * Further properties of the ungated worker *)

(** X16. The ungated worker puts [Access-Control-Allow-Origin: *] on
    every response it builds: preflight, success and every error. *)
Theorem ungated_always_cors w request env :
  headers (fst (Ungated.fetch w request env)) !! "Access-Control-Allow-Origin"
  = Some "*".
Proof.
  unfold Ungated.fetch.
  destruct (bool_decide (method request = "OPTIONS"));
    [vm_compute; reflexivity | ].
  destruct (negb (bool_decide (method request = "GET")));
    [vm_compute; reflexivity | ].
  destruct (falsy (GENIUS_ACCESS_TOKEN env)); [vm_compute; reflexivity | ].
  destruct (match_id "/song/" (pathname request)) as [songId | ].
  { destruct (fetchGeniusSong w songId _) as [[data | e] t];
      vm_compute; reflexivity. }
  destruct (match_id "/artist/" (pathname request)) as [artistId | ].
  { destruct (fetchGeniusArtist w artistId _) as [[data | e] t];
      vm_compute; reflexivity. }
  destruct (bool_decide (pathname request = "/")
            || bool_decide (pathname request = ""));
    vm_compute; reflexivity.
Qed.

(** X17. The ungated worker knows no secret, no rate limiter and no
    cache: all it ever does is call the upstream API, at most once, and
    only for a [GET] on a route while the token is configured, to
    [/songs/<id>] or [/artists/<id>] with the authorization
    [Bearer <token>]. The headers of the request play no part: two
    requests with the same method and path get the same response and
    cause the same calls. *)
Theorem ungated_only_calls_upstream w request env :
  (forall request',
      method request' = method request ->
      pathname request' = pathname request ->
      Ungated.fetch w request' env = Ungated.fetch w request env)
  /\ length (snd (Ungated.fetch w request env)) <= 1
  /\ (forall ev,
         ev ∈ snd (Ungated.fetch w request env) ->
         method request = "GET"
         /\ exists token id,
             token_is env token
             /\ (match_id "/song/" (pathname request) = Some id
                 /\ ev = EvUpstream (songs_url id) (bearer token)
                 \/ match_id "/song/" (pathname request) = None
                    /\ match_id "/artist/" (pathname request) = Some id
                    /\ ev = EvUpstream (artists_url id) (bearer token))).
Proof.
  split; [intros request' Hm Hp; unfold Ungated.fetch; by rewrite Hm, Hp | ].
  unfold Ungated.fetch.
  destruct (bool_decide (method request = "OPTIONS"));
    [split; [simpl; lia | by intros ev ?%elem_of_nil] | ].
  destruct (bool_decide (method request = "GET")) eqn:Hget;
    [ | split; [simpl; lia | by intros ev ?%elem_of_nil]].
  apply bool_decide_eq_true in Hget. cbn [negb].
  destruct (falsy (GENIUS_ACCESS_TOKEN env)) eqn:Hf;
    [split; [simpl; lia | by intros ev ?%elem_of_nil] | ].
  apply falsy_false in Hf.
  destruct (match_id "/song/" (pathname request)) as [id | ].
  { pose proof (fetchGeniusSong_events w id
                  (default "" (GENIUS_ACCESS_TOKEN env))) as Hev.
    destruct (fetchGeniusSong w id _) as [[data | e] t5]; simpl in Hev;
      subst t5; (split; [simpl; lia | ]);
      intros ev ->%list_elem_of_singleton; (split; [exact Hget | ]);
      exists (default "" (GENIUS_ACCESS_TOKEN env)), id; auto. }
  destruct (match_id "/artist/" (pathname request)) as [id | ].
  { pose proof (fetchGeniusArtist_events w id
                  (default "" (GENIUS_ACCESS_TOKEN env))) as Hev.
    destruct (fetchGeniusArtist w id _) as [[data | e] t5]; simpl in Hev;
      subst t5; (split; [simpl; lia | ]);
      intros ev ->%list_elem_of_singleton; (split; [exact Hget | ]);
      exists (default "" (GENIUS_ACCESS_TOKEN env)), id; auto 10. }
  destruct (bool_decide (pathname request = "/")
            || bool_decide (pathname request = ""));
    (split; [simpl; lia | by intros ev ?%elem_of_nil]).
Qed.

(** X18. An album without primary artist: when the upstream song has an
    album whose [primary_artists] is empty, reading the name of its first
    entry throws, and the ungated worker answers 500 with the message of
    that [TypeError] instead of the song. *)
Theorem ungated_empty_primary_artists w request env token id song a d :
  method request = "GET" ->
  token_is env token ->
  match_id "/song/" (pathname request) = Some id ->
  ok (http_fetch w (songs_url id) (bearer token)) = true ->
  json (http_fetch w (songs_url id) (bearer token)) = ParsedSong song ->
  flattenGenius (up_song_description_dom song) = Ok d ->
  up_album song = Some a ->
  up_album_primary_artists a = [] ->
  Ungated.fetch w request env
  = (mkResponse 500 json_cors
       (BodyJson (DataError (message (TypeError "name")))),
     [EvUpstream (songs_url id) (bearer token)]).
Proof.
  intros Hget Htok Hsong Hok Hjson Hflat Halbum Hnone.
  destruct (token_falsy _ _ Htok) as [Hf Hd].
  unfold Ungated.fetch. rewrite Hget, Hf, Hsong, Hd. cbn [bool_decide negb].
  unfold fetchGeniusSong. fold (songs_url id). fold (bearer token).
  rewrite Hok, Hjson, Hflat, Halbum, Hnone. reflexivity.
Qed.

Lemma ungated_empty_primary_artists_witness :
  Ungated.fetch artistless_album_world (anonymous_get "/song/5")
                configured_env
  = (mkResponse 500 json_cors
       (BodyJson (DataError (message (TypeError "name")))),
     [EvUpstream (songs_url "5") (bearer "token")]).
Proof.
  apply (ungated_empty_primary_artists artistless_album_world
           (anonymous_get "/song/5") configured_env "token" "5"
           artistless_song artistless_album []);
    try (vm_compute; reflexivity).
  split; [reflexivity | discriminate].
Defined.

(** * Spans are never empty *)

Lemma walk_text node :
  forall st lk ins s sp s',
    walk node st lk ins s = Ok (sp, s') ->
    (forall x, x ∈ sp -> text x <> "")
    /\ (forall x, x ∈ output_spans s' ->
                  x ∈ output_spans s \/ text x <> "").
Proof.
  induction node as [ | t | tag a children IH] using DomNode_tree_ind;
    intros st lk ins s sp s' H.
  - injection H as <- <-. split; [by intros x ?%elem_of_nil | auto].
  - rewrite walk_text_leaf in H.
    destruct (bool_decide (t = "")) eqn:Ht; injection H as <- <-;
      (split; [ | auto]); intros x Hx; [by apply elem_of_nil in Hx | ].
    apply list_elem_of_singleton in Hx as ->. simpl.
    by apply bool_decide_eq_false in Ht.
  - assert (forall st lk ins s sp s',
               flatMap (fun c => walk c st lk ins) (default [] children) s
               = Ok (sp, s') ->
               (forall x, x ∈ sp -> text x <> "")
               /\ (forall x, x ∈ output_spans s' ->
                             x ∈ output_spans s \/ text x <> "")) as Hcs.
    { intros st0 lk0 ins0.
      apply (flatMap_Ok _
               (fun _ s ys s' =>
                  (forall x, x ∈ ys -> text x <> "")
                  /\ (forall x, x ∈ output_spans s' ->
                                x ∈ output_spans s \/ text x <> ""))
               (fun _ s ys s' =>
                  (forall x, x ∈ ys -> text x <> "")
                  /\ (forall x, x ∈ output_spans s' ->
                                x ∈ output_spans s \/ text x <> ""))).
      - intros s0. split; [by intros x ?%elem_of_nil | auto].
      - intros c cs' s1 ys1 s2 ys2 s3 [Hy1 Ho1] [Hy2 Ho2]. split.
        + intros x [Hx | Hx]%elem_of_app; auto.
        + intros x Hx. destruct (Ho2 x Hx); auto.
      - eapply Forall_impl; [exact IH | ]. intros c Hc s0 ys s0'. apply Hc. }
    destruct (tag_cases tag)
      as [Htag | [Htag | [(Hbr & Himg & Hin) | (Hbr & Himg & Hin)]]].
    + subst tag. injection H as <- <-. split; [ | auto].
      intros x Hx. apply list_elem_of_singleton in Hx as ->. discriminate.
    + subst tag. rewrite walk_img in H. destruct a; [ | discriminate].
      injection H as <- <-. split; [by intros x ?%elem_of_nil | ].
      intros x Hx. left. rewrite output_spans_app in Hx. simpl in Hx.
      by rewrite app_nil_r in Hx.
    + rewrite walk_inline in H by assumption.
      apply bind_Ok in H as (nl & s1 & Hnl & H).
      apply newLink_state in Hnl as ->.
      rewrite walk_children_eq in H. eapply Hcs; eauto.
    + rewrite walk_other in H by assumption.
      apply bind_Ok in H as (csp & s1 & Hc & H).
      rewrite walk_children_eq in Hc. apply Hcs in Hc as [Hy Ho].
      destruct (is_block_tag tag && negb ins);
        [ | by injection H as <- <-].
      apply bind_Ok in H as (u & s2 & Hpush & H). injection H as <- <-.
      split; [by intros x ?%elem_of_nil | ].
      destruct (bool_decide (0 < length csp)); injection Hpush as _ <-;
        [ | exact Ho].
      intros x Hx. rewrite output_spans_app in Hx. simpl in Hx.
      rewrite app_nil_r in Hx. apply elem_of_app in Hx as [Hx | Hx]; auto.
Qed.

(** X19. No span of the output has an empty text: an empty string of the
    DOM is dropped like [null], so every span is a newline or a run of at
    least one character. *)
Theorem spans_have_text dom out x :
  flattenGenius dom = Ok out ->
  x ∈ output_spans out ->
  text x <> "".
Proof.
  intros H Hx. apply flattenGenius_Ok in H as [sp H].
  destruct (walk_text _ _ _ _ _ _ _ H) as [_ Ho].
  destruct (Ho x Hx) as [Hnil | Hne]; [by apply elem_of_nil in Hnil | ].
  exact Hne.
Qed.

Lemma spans_have_text_witness : "world" <> "".
Proof.
  apply (spans_have_text c1_input
           [Block "paragraph"
              [mkSpan "Hello " [] Null; mkSpan "world" ["bold"] Null;
               mkSpan "!" [] Null]]
           (mkSpan "world" ["bold"] Null)).
  - vm_compute. reflexivity.
  - apply list_elem_of_further, list_elem_of_here.
Defined.
